(** * Snapshot comparators

    A shallow embedding of
    [packages/playwright-core/src/utils/comparators.ts]: the comparator
    registry [getComparator], the image comparator [compareImages], the text
    comparator [compareText] with its terminal renderer
    [diff_prettyTerminal], and the binary fallback
    [compareBuffersOrStrings].

    Modelling conventions.
    - A Node [Buffer] is a list of bytes; a JS string is a [string].
    - The [actual] argument is typed [Buffer | string] but is tested at
      run time, so it is a [JsValue] covering the other kinds of value too.
    - A finite JS number is a double, carried here by its exact value, a
      rational ([Q]); option fields of type [number | undefined] are
      [option Q].  The product and the quotient of two doubles are rounded
      to the nearest double, ties to even: [round53] rounds a rational to
      53 significant bits, and [round53_agrees_with_binary64] checks it
      against the kernel's binary64 operations on sample operands.  The
      exponent of a result is not bounded: overflow to an infinity and
      gradual underflow are left out (a cap beyond the largest double stays
      finite where the code has [Infinity], which changes no comparison
      with a count), as are signed zeros and NaN-valued options.
      Comparisons, [Math.min] and [Math.ceil] are exact on doubles.
    - An option value stands for a double: where a test writes the
      decimal literal [0.29], the option is [round53 (29 # 100)].
    - Widths, heights and pixel counts are natural numbers ([N]).  The
      product [width * height] is the number of pixels of an image that
      was decoded into memory; it is below 2^53, where the product of
      doubles is exact, and is computed in [N].
    - The division computing the reported ratio can leave the finite
      numbers when an image has no pixel; its result lives in [number],
      which adds NaN and the infinities.
    - The [options] parameter is the declared one: omitted ([None], which
      the default [{}] replaces) or an options object.  The [any]-typed
      [Comparator] signature also admits [null], on which reading
      [options.comparator] raises a TypeError; that value is outside the
      model.
    - [throw] is the [Throw] outcome of a [completion].
    - The image codecs, the two pixel-diff kernels, the text-diff library,
      the terminal colours and UTF-8 decoding are imported by the file from
      other modules; they are the fields of the class [Externals].  A
      decoder may reject a buffer; the other collaborators are taken to
      return normally. *)

From Stdlib Require Import ZArith NArith QArith Qround Qminmax Qabs Qpower.
From Stdlib Require PrimFloat FloatOps SpecFloat Uint63.
From Stdlib Require Import String Ascii List Bool Lia.
From Stdlib Require Import DecimalString DecimalN Strings.Byte.
Import ListNotations.

Local Open Scope string_scope.

(** ** Values *)

Definition Buffer := list byte.

Inductive JsValue :=
| Undefined
| Null
| Boolean (b : bool)
| Num (q : Q)
| Str (s : string)
| Buf (b : Buffer)
| Obj.

(** [typeof v === 'string'] *)
Definition typeof_string (v : JsValue) : bool :=
  match v with Str _ => true | _ => false end.

(** [v instanceof Buffer] *)
Definition instanceof_Buffer (v : JsValue) : bool :=
  match v with Buf _ => true | _ => false end.

(** ToBoolean: [!v] is [negb (truthy v)]. *)
Definition truthy (v : JsValue) : bool :=
  match v with
  | Undefined | Null => false
  | Boolean b => b
  | Num q => negb (Qeq_bool q 0)
  | Str s => negb (s =? "")
  | Buf _ | Obj => true
  end.

(** [a ?? b] where [None] stands for [undefined]. *)
Definition nullish {A : Type} (a : option A) (b : A) : A :=
  match a with Some x => x | None => b end.

(** [a ?? b] when [b] may itself be [undefined]. *)
Definition nullish_opt {A : Type} (a b : option A) : option A :=
  match a with Some x => Some x | None => b end.

(** ** The types exported by the file *)

Record ImageComparatorOptions := {
  threshold : option Q;
  maxDiffPixels : option Q;
  maxDiffPixelRatio : option Q;
  comparator : option string
}.

(** The default value [{}] of the [options] parameter. *)
Definition no_options : ImageComparatorOptions :=
  {| threshold := None; maxDiffPixels := None;
     maxDiffPixelRatio := None; comparator := None |}.

Record Mismatch := {
  errorMessage : string;
  diff : option Buffer
}.

(** [ComparatorResult]: [null] (a match) is [None]. *)
Definition ComparatorResult := option Mismatch.

Inductive Exception :=
| CodecException (message : string)
| Error (message : string).

Inductive completion (A : Type) :=
| Return (a : A)
| Throw (e : Exception).
Arguments Return {A} a.
Arguments Throw {A} e.

Definition bind {A B : Type} (c : completion A) (k : A -> completion B)
  : completion B :=
  match c with
  | Return a => k a
  | Throw e => Throw e
  end.

Notation "x <- c ;; k" := (bind c (fun x => k))
  (at level 61, c at next level, right associativity).

Definition Comparator :=
  JsValue -> Buffer -> option ImageComparatorOptions ->
  completion ComparatorResult.

(** ** Decoded images *)

Record Image := {
  width : N;
  height : N;
  data : Buffer
}.

Inductive Decoded :=
| Pixels (img : Image)
| Malformed (why : string).

Definition decoded (d : Decoded) : completion Image :=
  match d with
  | Pixels img => Return img
  | Malformed why => Throw (CodecException why)
  end.

(** ** Numbers *)

Inductive number :=
| NaN
| Infinity (negative : bool)
| Finite (q : Q).

Definition Qneg (q : Q) : bool :=
  match (q ?= 0)%Q with Lt => true | _ => false end.

(** [a > b] on finite numbers. *)
Definition Qgtb (a b : Q) : bool :=
  match (a ?= b)%Q with Gt => true | _ => false end.

(** [Math.min] on finite numbers. *)
Definition Math_min (a b : Q) : Q := Qmin a b.

(** *** Rounding to a double *)

Definition pow2 (e : Z) : Q := 2 ^ e.

(** The nearest integer, the even one on a tie. *)
Definition round_half_even (x : Q) : Z :=
  let f := Qfloor x in
  match (x - inject_Z f ?= 1 # 2)%Q with
  | Lt => f
  | Gt => (f + 1)%Z
  | Eq => if Z.even f then f else (f + 1)%Z
  end.

(** For a positive [q], the exponent [e] with [2^e <= q < 2^(e+1)]. *)
Definition binade (q : Q) : Z :=
  let e0 := (Z.log2 (Qnum q) - Z.log2 (Zpos (Qden q)))%Z in
  if Qle_bool (pow2 e0) q then e0 else (e0 - 1)%Z.

(** A positive rational rounded to 53 significant bits: the significand
    [q / 2^s] lies in [[2^52, 2^53)] and is rounded to an integer. *)
Definition round53_pos (q : Q) : Q :=
  let s := (binade q - 52)%Z in
  inject_Z (round_half_even (q / pow2 s)) * pow2 s.

(** The double nearest to a rational, ties to even, in lowest terms. *)
Definition round53 (q : Q) : Q :=
  let q := Qred q in
  match (q ?= 0)%Q with
  | Eq => 0
  | Gt => Qred (round53_pos q)
  | Lt => Qred (- round53_pos (- q))
  end.

(** The exact value of a finite primitive float. *)
Definition value_of_float (f : PrimFloat.float) : option Q :=
  match FloatOps.Prim2SF f with
  | SpecFloat.S754_zero _ => Some 0
  | SpecFloat.S754_finite s m e =>
      Some (Qred ((if s then -1 else 1) * inject_Z (Zpos m) * pow2 e))
  | _ => None
  end.

(** The double nearest to [n / d], for integers below 2^53. *)
Definition float_of_fraction (n d : Z) : PrimFloat.float :=
  PrimFloat.div (PrimFloat.of_uint63 (Uint63.of_Z n))
    (PrimFloat.of_uint63 (Uint63.of_Z d)).

(** Whether [round53] gives the product and the quotient that the kernel's
    binary64 arithmetic gives for the doubles nearest to [n1/d1] and
    [n2/d2]. *)
Definition agrees_with_binary64 (operands : (Z * Z) * (Z * Z)) : bool :=
  let a := float_of_fraction (fst (fst operands)) (snd (fst operands)) in
  let b := float_of_fraction (fst (snd operands)) (snd (snd operands)) in
  match value_of_float a, value_of_float b,
        value_of_float (PrimFloat.mul a b),
        value_of_float (PrimFloat.div a b) with
  | Some x, Some y, Some product, Some quotient =>
      Qeq_bool x
        (round53 (inject_Z (fst (fst operands))
                  / inject_Z (snd (fst operands))))
      && Qeq_bool (round53 (x * y)) product
      && Qeq_bool (round53 (x / y)) quotient
  | _, _, _, _ => false
  end.

Definition num_div (a b : number) : number :=
  match a, b with
  | NaN, _ | _, NaN => NaN
  | Infinity _, Infinity _ => NaN
  | Infinity s, Finite q => Infinity (xorb s (Qneg q))
  | Finite _, Infinity _ => Finite 0
  | Finite p, Finite q =>
      if Qeq_bool q 0
      then (if Qeq_bool p 0 then NaN else Infinity (Qneg p))
      else Finite (round53 (p / q))
  end.

Definition num_mul (a b : number) : number :=
  match a, b with
  | NaN, _ | _, NaN => NaN
  | Infinity s, Infinity t => Infinity (xorb s t)
  | Infinity s, Finite q | Finite q, Infinity s =>
      if Qeq_bool q 0 then NaN else Infinity (xorb s (Qneg q))
  | Finite p, Finite q => Finite (round53 (p * q))
  end.

Definition Math_ceil (a : number) : number :=
  match a with
  | Finite q => Finite (inject_Z (Qceiling q))
  | _ => a
  end.

Definition of_N (n : N) : number := Finite (inject_Z (Z.of_N n)).

(** Decimal rendering of a natural number, as a template literal does. *)
Definition string_of_N (n : N) : string :=
  NilZero.string_of_uint (N.to_uint n).

Definition digit (d : N) : string :=
  String (ascii_of_N (48 + d)) "".

(** [x.toFixed(2)]: the nearest multiple of 1/100 (the larger one on a
    tie), printed with exactly two decimals.  Values of magnitude 1e21 and
    above, which JS prints in exponent form, are not distinguished. *)
Definition toFixed2 (x : number) : string :=
  match x with
  | NaN => "NaN"
  | Infinity false => "Infinity"
  | Infinity true => "-Infinity"
  | Finite q =>
      let s := if Qneg q then "-" else "" in
      let n := Z.to_N (Qfloor (Qabs q * 100 + (1 # 2))) in
      s ++ string_of_N (n / 100) ++ "."
        ++ digit ((n mod 100) / 10) ++ digit (n mod 10)
  end.

(** [Buffer.compare]: lexicographic order on the bytes, as -1, 0 or 1. *)
Fixpoint Buffer_compare (a b : Buffer) : Z :=
  match a, b with
  | [], [] => 0
  | [], _ :: _ => -1
  | _ :: _, [] => 1
  | x :: a', y :: b' =>
      match (Byte.to_N x ?= Byte.to_N y)%N with
      | Lt => -1
      | Gt => 1
      | Eq => Buffer_compare a' b'
      end
  end.

(** A JS array of strings under construction: [None] is a hole. *)
Definition js_array := list (option string).

(** [arr[i] = v]: writing past the end extends the array with holes. *)
Fixpoint array_set (arr : js_array) (i : nat) (v : string) : js_array :=
  match i, arr with
  | O, [] => [Some v]
  | O, _ :: rest => Some v :: rest
  | S i', [] => None :: array_set [] i' v
  | S i', x :: rest => x :: array_set rest i' v
  end.

(** [arr.join('')]: holes and [undefined] elements print as nothing. *)
Fixpoint array_join (arr : js_array) : string :=
  match arr with
  | [] => ""
  | Some s :: rest => s ++ array_join rest
  | None :: rest => array_join rest
  end.

(** ** Imported collaborators *)

Class Externals := {
  (** [PNG.sync.read] *)
  PNG_sync_read : Buffer -> Decoded;
  (** [jpegjs.decode(buffer, { maxMemoryUsageInMB })] *)
  jpegjs_decode : Buffer -> N -> Decoded;
  (** [new PNG({ width, height })] *)
  PNG_new : N -> N -> Image;
  (** [PNG.sync.write] *)
  PNG_sync_write : Image -> Buffer;
  (** [pixelmatch(img1, img2, output, width, height, { threshold })]:
      the count, and the contents of [output] afterwards. *)
  pixelmatch : Buffer -> Buffer -> Buffer -> N -> N -> Q -> N * Buffer;
  (** [compare(img1, img2, output, width, height, { maxColorDeltaE94 })] *)
  compare : Buffer -> Buffer -> Buffer -> N -> N -> Q -> N * Buffer;
  (** [dmp.diff_main] *)
  diff_main : string -> string -> list (Z * string);
  (** [dmp.diff_cleanupSemantic]: the list after the in-place clean-up. *)
  diff_cleanupSemantic : list (Z * string) -> list (Z * string);
  DIFF_INSERT : Z;
  DIFF_DELETE : Z;
  DIFF_EQUAL : Z;
  colors_green : string -> string;
  colors_red : string -> string;
  colors_strikethrough : string -> string;
  colors_reset : string -> string;
  (** [buffer.toString('utf-8')] *)
  toString_utf8 : Buffer -> string
}.

Definition dquote : string := String (ascii_of_N 34) "".

Section Comparators.

Context {ext : Externals}.

Definition JPEG_JS_MAX_BUFFER_SIZE_IN_MB : N := 5 * 1024.

(** Lines 105-124. *)
Fixpoint diff_prettyTerminal_loop (diffs : list (Z * string)) (x : nat)
    (html : js_array) : js_array :=
  match diffs with
  | [] => html
  | (op, data) :: rest =>
      let text := data in
      let html :=
        if (op =? DIFF_INSERT)%Z then
          array_set html x (colors_green text)
        else if (op =? DIFF_DELETE)%Z then
          array_set html x
            (colors_reset (colors_strikethrough (colors_red text)))
        else if (op =? DIFF_EQUAL)%Z then
          array_set html x text
        else html in
      diff_prettyTerminal_loop rest (S x) html
  end.

Definition diff_prettyTerminal (diffs : list (Z * string)) : string :=
  array_join (diff_prettyTerminal_loop diffs 0 []).

(** Lines 91-103. *)
Definition compareText (actual : JsValue) (expectedBuffer : Buffer)
  : ComparatorResult :=
  match actual with
  | Str actual =>
      let expected := toString_utf8 expectedBuffer in
      if expected =? actual then None
      else
        let d := diff_main expected actual in
        let d := diff_cleanupSemantic d in
        Some {| errorMessage := diff_prettyTerminal d; diff := None |}
  | _ => Some {| errorMessage := "Actual result should be a string";
                 diff := None |}
  end.

(** Lines 40-48.  The middle guard is
    [!actualBuffer || !(actualBuffer instanceof Buffer)]. *)
Definition compareBuffersOrStrings (actualBuffer : JsValue)
    (expectedBuffer : Buffer) : ComparatorResult :=
  if typeof_string actualBuffer then
    compareText actualBuffer expectedBuffer
  else
    match actualBuffer with
    | Buf actual =>
        if (Buffer_compare actual expectedBuffer =? 0)%Z then None
        else Some {| errorMessage := "Buffers differ"; diff := None |}
    | _ =>
        Some {| errorMessage := "Actual result should be a Buffer or a string.";
                diff := None |}
    end.

(** Lines 54-55: the codec is chosen by the bound sub-format. *)
Definition decode (mimeType : string) (buffer : Buffer) : completion Image :=
  decoded (if mimeType =? "image/png" then PNG_sync_read buffer
           else jpegjs_decode buffer JPEG_JS_MAX_BUFFER_SIZE_IN_MB).

(** [options.comparator === name] *)
Definition comparator_is (options : ImageComparatorOptions) (name : string)
  : bool :=
  match comparator options with
  | Some c => c =? name
  | None => false
  end.

(** The template literal of line 74 prints a missing field as
    [undefined]. *)
Definition comparator_text (options : ImageComparatorOptions) : string :=
  nullish (comparator options) "undefined".

(** Lines 61-75: the diff image is allocated, then the kernel named by
    [options.comparator] fills it and returns the count. *)
Definition run_comparator (options : ImageComparatorOptions)
    (expected actual : Image) : completion (N * Image) :=
  let diff := PNG_new (width expected) (height expected) in
  let filled (r : N * Buffer) :=
    (fst r, {| width := width diff; height := height diff;
               data := snd r |}) in
  if comparator_is options "ssim-cie94" then
    Return (filled (compare (data expected) (data actual) (data diff)
                      (width expected) (height expected) 1%Q))
  else if nullish (comparator options) "pixelmatch" =? "pixelmatch" then
    Return (filled (pixelmatch (data expected) (data actual) (data diff)
                      (width expected) (height expected)
                      (nullish (threshold options) (2 # 10)%Q)))
  else
    Throw (Error ("Configuration specifies unknown comparator "
                    ++ dquote ++ comparator_text options ++ dquote)).

(** Lines 50-89.  The first guard is
    [!actualBuffer || !(actualBuffer instanceof Buffer)]. *)
Definition compareImages (mimeType : string) (actualBuffer : JsValue)
    (expectedBuffer : Buffer) (options : option ImageComparatorOptions)
  : completion ComparatorResult :=
  let options := nullish options no_options in
  match actualBuffer with
  | Buf actualBuffer =>
      actual <- decode mimeType actualBuffer ;;
      expected <- decode mimeType expectedBuffer ;;
      if negb (width expected =? width actual)%N
         || negb (height expected =? height actual)%N
      then
        Return (Some {|
          errorMessage :=
            "Expected an image " ++ string_of_N (width expected)
              ++ "px by " ++ string_of_N (height expected)
              ++ "px, received " ++ string_of_N (width actual)
              ++ "px by " ++ string_of_N (height actual) ++ "px. ";
          diff := None |})
      else
        r <- run_comparator options expected actual ;;
        let count := fst r in
        let diff := snd r in
        (* the number of pixels: an exact product of doubles *)
        let pixels := inject_Z (Z.of_N (width expected * height expected)) in
        let maxDiffPixels1 := maxDiffPixels options in
        let maxDiffPixels2 :=
          match maxDiffPixelRatio options with
          | Some ratio => Some (round53 (pixels * ratio))
          | None => None
          end in
        let maxDiffPixels :=
          match maxDiffPixels1, maxDiffPixels2 with
          | Some m1, Some m2 => Math_min m1 m2
          | _, _ => nullish (nullish_opt maxDiffPixels1 maxDiffPixels2) 0%Q
          end in
        let ratio :=
          num_div
            (Math_ceil
               (num_mul
                  (num_div (of_N count)
                     (of_N (width expected * height expected)))
                  (Finite 100)))
            (Finite 100) in
        Return
          (if Qgtb (inject_Z (Z.of_N count)) maxDiffPixels then
             Some {|
               errorMessage :=
                 string_of_N count ++ " pixels (ratio " ++ toFixed2 ratio
                   ++ " of all image pixels) are different";
               diff := Some (PNG_sync_write diff) |}
           else None)
  | _ =>
      Return (Some {| errorMessage := "Actual result should be a Buffer.";
                      diff := None |})
  end.

(** Lines 28-36.  [compareText] and [compareBuffersOrStrings] ignore the
    third argument they are called with. *)
Definition getComparator (mimeType : string) : Comparator :=
  if mimeType =? "image/png" then
    compareImages "image/png"
  else if mimeType =? "image/jpeg" then
    compareImages "image/jpeg"
  else if mimeType =? "text/plain" then
    fun actual expected _ => Return (compareText actual expected)
  else
    fun actual expected _ => Return (compareBuffersOrStrings actual expected).

End Comparators.

(** ** A small concrete platform

    A raw codec (one byte of width, one of height, then the RGBA samples),
    a kernel counting the pixels whose four samples are not all equal, and
    a text diff that reports a full replacement.  It serves to run the
    comparators on concrete inputs. *)
Module Toy.

Definition read (b : Buffer) : Decoded :=
  match b with
  | w :: h :: samples =>
      if (N.of_nat (List.length samples) =? 4 * Byte.to_N w * Byte.to_N h)%N
      then Pixels {| width := Byte.to_N w; height := Byte.to_N h;
                     data := samples |}
      else Malformed "truncated image"
  | _ => Malformed "missing header"
  end.

Definition byte_of (n : N) : byte :=
  match Byte.of_N (n mod 256) with Some b => b | None => x00 end.

Definition write (img : Image) : Buffer :=
  byte_of (width img) :: byte_of (height img) :: data img.

Fixpoint differing (a b : Buffer) : N :=
  match a, b with
  | r1 :: g1 :: b1 :: a1 :: a', r2 :: g2 :: b2 :: a2 :: b' =>
      (if Byte.eqb r1 r2 && Byte.eqb g1 g2 && Byte.eqb b1 b2
          && Byte.eqb a1 a2 then 0 else 1) + differing a' b'
  | _, _ => 0
  end%N.

Definition kernel (img1 img2 output : Buffer) (w h : N) (_ : Q)
  : N * Buffer :=
  (differing img1 img2, output).

Definition replace_all (expected actual : string) : list (Z * string) :=
  [((-1)%Z, expected); (1%Z, actual)].

#[export] Instance platform : Externals := {|
  PNG_sync_read := read;
  jpegjs_decode := fun b _ => read b;
  PNG_new := fun w h =>
    {| width := w; height := h;
       data := List.repeat x00 (N.to_nat (4 * w * h)) |};
  PNG_sync_write := write;
  pixelmatch := kernel;
  compare := kernel;
  diff_main := replace_all;
  diff_cleanupSemantic := fun d => d;
  DIFF_INSERT := 1;
  DIFF_DELETE := -1;
  DIFF_EQUAL := 0;
  colors_green := fun t => "<ins>" ++ t ++ "</ins>";
  colors_red := fun t => "<red>" ++ t ++ "</red>";
  colors_strikethrough := fun t => "<s>" ++ t ++ "</s>";
  colors_reset := fun t => t;
  toString_utf8 := string_of_list_byte
|}.

(** A 1x1 black pixel, a 1x1 white pixel, a 2x1 black image. *)
Definition black : Buffer := [x01; x01; x00; x00; x00; xff].
Definition white : Buffer := [x01; x01; xff; xff; xff; xff].
Definition wide : Buffer :=
  [x02; x01; x00; x00; x00; xff; x00; x00; x00; xff].

(** A 2x1 image, black then white. *)
Definition half : Buffer :=
  [x02; x01; x00; x00; x00; xff; xff; xff; xff; xff].

Definition pixels_of (b : Buffer) : Image :=
  match read b with
  | Pixels img => img
  | Malformed _ => {| width := 0; height := 0; data := [] |}
  end.

(** The diff image of a [w]x[h] comparison: the toy kernels leave the
    freshly allocated output untouched. *)
Definition blank (w h : N) : Image :=
  {| width := w; height := h;
     data := List.repeat x00 (N.to_nat (4 * w * h)) |}.

Definition with_comparator (name : string) : ImageComparatorOptions :=
  {| threshold := None; maxDiffPixels := None;
     maxDiffPixelRatio := None; comparator := Some name |}.

Definition with_caps (pixels ratio : option Q) : ImageComparatorOptions :=
  {| threshold := None; maxDiffPixels := pixels;
     maxDiffPixelRatio := ratio; comparator := None |}.

End Toy.

(** Inputs at the edge of a ratio cap, for the concrete platform: images
    whose first pixels are white and whose other pixels are black, to be
    compared with an all-black image of the same size. *)
Module Boundary.

Definition image (w h : byte) (white total : nat) : Buffer :=
  w :: h
    :: List.concat (List.repeat [xff; xff; xff; xff] white)
    ++ List.concat (List.repeat [x00; x00; x00; xff] (total - white)).

(** 10x10 with 29 white pixels, and all black. *)
Definition spotted100 : Buffer := image x0a x0a 29 100.
Definition plain100 : Buffer := image x0a x0a 0 100.

(** 10x1 with 7 white pixels, and all black. *)
Definition spotted10 : Buffer := image x0a x01 7 10.
Definition plain10 : Buffer := image x0a x01 0 10.

(** The options [{ maxDiffPixelRatio: q }], [q] standing for the decimal
    literal of the source text, which denotes the nearest double. *)
Definition with_ratio (q : Q) : ImageComparatorOptions :=
  Toy.with_caps None (Some (round53 q)).

End Boundary.

(** ** The specification's vocabulary *)

(** The effective pixel cap as the specification words it: the minimum when
    both caps are given, the one that is given otherwise, zero by default.
    The ratio-derived cap is the product of doubles [pixels * ratio]. *)
Definition effective_cap (pixels : N) (options : ImageComparatorOptions)
  : Q :=
  match maxDiffPixels options, maxDiffPixelRatio options with
  | Some m, Some r => Qmin m (round53 (inject_Z (Z.of_N pixels) * r))
  | Some m, None => m
  | None, Some r => round53 (inject_Z (Z.of_N pixels) * r)
  | None, None => 0
  end.

(** The reported ratio as the specification words it:
    [ceil(count / totalPixels * 100) / 100], in the arithmetic of
    doubles. *)
Definition reported_ratio (count pixels : N) : number :=
  num_div
    (Math_ceil (num_mul (num_div (of_N count) (of_N pixels)) (Finite 100)))
    (Finite 100).

(** The percentage of differing pixels as line 84 computes it, before
    [Math.ceil]: a quotient of doubles, then a product of doubles. *)
Definition percent (count pixels : N) : Q :=
  round53 (round53 (inject_Z (Z.of_N count) / inject_Z (Z.of_N pixels)) * 100).

(** Whether [percent] is what the kernel's binary64 arithmetic gives for
    [count / pixels * 100]. *)
Definition percent_agrees_with_binary64 (count pixels : Z) : bool :=
  let double (z : Z) := PrimFloat.of_uint63 (Uint63.of_Z z) in
  match value_of_float
          (PrimFloat.mul (PrimFloat.div (double count) (double pixels))
             (double 100%Z)) with
  | Some v => Qeq_bool v (percent (Z.to_N count) (Z.to_N pixels))
  | None => false
  end.

(** A number of hundredths printed with two decimals. *)
Definition hundredths (k : N) : string :=
  string_of_N (k / 100) ++ "." ++ digit ((k mod 100) / 10) ++ digit (k mod 10).

(** The specification's [TextEdit]. *)
Inductive EditKind := Insert | Delete | Equal.

Definition TextEdit := (EditKind * string)%type.

Section Vocabulary.

Context {ext : Externals}.

(** How the text-diff library tags an edit. *)
Definition edit_code (k : EditKind) : Z :=
  match k with
  | Insert => DIFF_INSERT
  | Delete => DIFF_DELETE
  | Equal => DIFF_EQUAL
  end.

Definition encode_edit (e : TextEdit) : Z * string :=
  (edit_code (fst e), snd e).

(** Added style, removed and struck-through style, verbatim. *)
Definition render_edit (e : TextEdit) : string :=
  match fst e with
  | Insert => colors_green (snd e)
  | Delete => colors_reset (colors_strikethrough (colors_red (snd e)))
  | Equal => snd e
  end.

Definition render_edits (edits : list TextEdit) : string :=
  List.fold_right (fun e rest => render_edit e ++ rest) "" edits.

(** What one iteration of the rendering loop contributes to the join. *)
Definition cell (d : Z * string) : string :=
  if (fst d =? DIFF_INSERT)%Z then colors_green (snd d)
  else if (fst d =? DIFF_DELETE)%Z then
    colors_reset (colors_strikethrough (colors_red (snd d)))
  else if (fst d =? DIFF_EQUAL)%Z then snd d
  else "".

(** The message of the dimension mismatch. *)
Definition dimension_message (expected actual : Image) : string :=
  "Expected an image " ++ string_of_N (width expected)
    ++ "px by " ++ string_of_N (height expected)
    ++ "px, received " ++ string_of_N (width actual)
    ++ "px by " ++ string_of_N (height actual) ++ "px. ".

End Vocabulary.

(** ** Option updates, defaults and verdicts *)

Definition set_threshold (t : option Q) (o : ImageComparatorOptions)
  : ImageComparatorOptions :=
  {| threshold := t; maxDiffPixels := maxDiffPixels o;
     maxDiffPixelRatio := maxDiffPixelRatio o; comparator := comparator o |}.

Definition set_maxDiffPixels (m : option Q) (o : ImageComparatorOptions)
  : ImageComparatorOptions :=
  {| threshold := threshold o; maxDiffPixels := m;
     maxDiffPixelRatio := maxDiffPixelRatio o; comparator := comparator o |}.

Definition set_maxDiffPixelRatio (r : option Q) (o : ImageComparatorOptions)
  : ImageComparatorOptions :=
  {| threshold := threshold o; maxDiffPixels := maxDiffPixels o;
     maxDiffPixelRatio := r; comparator := comparator o |}.

(** The options with the two defaulted fields written out: the threshold
    of line 71 and the comparator name of line 69. *)
Definition fill_defaults (o : ImageComparatorOptions)
  : ImageComparatorOptions :=
  {| threshold := Some (nullish (threshold o) (2 # 10)%Q);
     maxDiffPixels := maxDiffPixels o;
     maxDiffPixelRatio := maxDiffPixelRatio o;
     comparator := Some (nullish (comparator o) "pixelmatch") |}.

(** The message of the error thrown on line 74. *)
Definition unknown_comparator_message (name : string) : string :=
  "Configuration specifies unknown comparator " ++ dquote ++ name ++ dquote.

(** The message of lines 85-86. *)
Definition count_message (count pixels : N) : string :=
  string_of_N count ++ " pixels (ratio "
    ++ toFixed2 (reported_ratio count pixels)
    ++ " of all image pixels) are different".

Section Verdicts.

Context {ext : Externals}.

(** One of the three tags that the rendering loop has a case for. *)
Definition recognised (d : Z * string) : bool :=
  (fst d =? DIFF_INSERT)%Z || (fst d =? DIFF_DELETE)%Z
  || (fst d =? DIFF_EQUAL)%Z.

(** Lines 77-88 for a given count and filled diff image. *)
Definition threshold_verdict (options : ImageComparatorOptions) (pixels : N)
    (r : N * Image) : ComparatorResult :=
  if Qgtb (inject_Z (Z.of_N (fst r))) (effective_cap pixels options)
  then Some {| errorMessage := count_message (fst r) pixels;
               diff := Some (PNG_sync_write (snd r)) |}
  else None.

(** The five ways a call of the image comparator can go. *)
Inductive ImageRun (mimeType : string) (actual : JsValue)
    (expectedBuffer : Buffer) (options : option ImageComparatorOptions)
  : completion ComparatorResult -> Prop :=
| RunNotBuffer :
    instanceof_Buffer actual = false ->
    ImageRun mimeType actual expectedBuffer options
      (Return (Some {| errorMessage := "Actual result should be a Buffer.";
                       diff := None |}))
| RunActualMalformed (actualBuffer : Buffer) (why : string) :
    actual = Buf actualBuffer ->
    decode mimeType actualBuffer = Throw (CodecException why) ->
    ImageRun mimeType actual expectedBuffer options
      (Throw (CodecException why))
| RunExpectedMalformed (actualBuffer : Buffer) (decodedActual : Image)
    (why : string) :
    actual = Buf actualBuffer ->
    decode mimeType actualBuffer = Return decodedActual ->
    decode mimeType expectedBuffer = Throw (CodecException why) ->
    ImageRun mimeType actual expectedBuffer options
      (Throw (CodecException why))
| RunDimensions (actualBuffer : Buffer) (decodedActual expected : Image) :
    actual = Buf actualBuffer ->
    decode mimeType actualBuffer = Return decodedActual ->
    decode mimeType expectedBuffer = Return expected ->
    width expected <> width decodedActual
    \/ height expected <> height decodedActual ->
    ImageRun mimeType actual expectedBuffer options
      (Return (Some {| errorMessage :=
                         dimension_message expected decodedActual;
                       diff := None |}))
| RunCompared (actualBuffer : Buffer) (decodedActual expected : Image) :
    actual = Buf actualBuffer ->
    decode mimeType actualBuffer = Return decodedActual ->
    decode mimeType expectedBuffer = Return expected ->
    width expected = width decodedActual ->
    height expected = height decodedActual ->
    ImageRun mimeType actual expectedBuffer options
      (r <- run_comparator (nullish options no_options) expected
              decodedActual ;;
       Return (threshold_verdict (nullish options no_options)
                 (width expected * height expected) r)).

End Verdicts.

(** ** Properties *)

Lemma append_empty_r (s : string) : s ++ "" = s.
Proof. induction s as [|c s IH]; simpl; [reflexivity | now rewrite IH]. Qed.

Lemma append_assoc (a b c : string) : (a ++ b) ++ c = a ++ b ++ c.
Proof. induction a as [|x a IH]; simpl; [reflexivity | now rewrite IH]. Qed.

Lemma Byte_to_N_inj (x y : byte) : Byte.to_N x = Byte.to_N y -> x = y.
Proof.
  intros E. pose proof (Byte.of_to_N x) as Hx. rewrite E, Byte.of_to_N in Hx.
  now injection Hx.
Qed.

Lemma Buffer_compare_eq (a b : Buffer) :
  Buffer_compare a b = 0%Z <-> a = b.
Proof.
  revert b. induction a as [|x a IH]; intros [|y b]; simpl;
    try (split; intros; discriminate); [tauto|].
  destruct (N.compare_spec (Byte.to_N x) (Byte.to_N y)) as [E|L|L].
  - apply Byte_to_N_inj in E. subst y. rewrite IH.
    split; [now intros -> | now intros [= ->]].
  - split; [discriminate | intros [= -> _]; lia].
  - split; [discriminate | intros [= -> _]; lia].
Qed.

Lemma Buffer_compare_refl (a : Buffer) : Buffer_compare a a = 0%Z.
Proof. now apply Buffer_compare_eq. Qed.

(** The guard [!v || !(v instanceof Buffer)] lets exactly the buffers
    through. *)
Lemma buffer_guard (v : JsValue) :
  negb (truthy v) || negb (instanceof_Buffer v) = false <->
  exists b, v = Buf b.
Proof.
  split.
  - destruct v; simpl; intros H; rewrite ?orb_true_r in H;
      try discriminate. eauto.
  - intros [b ->]. reflexivity.
Qed.

Lemma array_set_nil (x : nat) (v : string) :
  array_join (array_set [] x v) = v /\
  List.length (array_set [] x v) = S x.
Proof.
  induction x as [|x [IH1 IH2]]; simpl.
  - now rewrite append_empty_r.
  - now rewrite IH1, IH2.
Qed.

Lemma array_set_past_end (html : js_array) (x : nat) (v : string) :
  (List.length html <= x)%nat ->
  array_join (array_set html x v) = array_join html ++ v /\
  List.length (array_set html x v) = S x.
Proof.
  revert x. induction html as [|cell html IH]; intros x Hx.
  - apply array_set_nil.
  - destruct x as [|x]; simpl in Hx; [lia|].
    destruct (IH x ltac:(lia)) as [IH1 IH2]. simpl. rewrite IH1, IH2.
    split; [|reflexivity].
    destruct cell; [now rewrite append_assoc | reflexivity].
Qed.

(** *** Rounding to a double *)

Lemma pow2_pos (e : Z) : 0 < pow2 e.
Proof. apply Qpower_0_lt. reflexivity. Qed.

Lemma pow2_plus (a b : Z) : pow2 (a + b) == pow2 a * pow2 b.
Proof. apply Qpower_plus. discriminate. Qed.

Lemma pow2_le (a b : Z) : (a <= b)%Z -> pow2 a <= pow2 b.
Proof. intros H. apply Qpower_le_compat_l; [exact H | discriminate]. Qed.

Lemma pow2_lt_inv (a b : Z) : pow2 a < pow2 b -> (a < b)%Z.
Proof. intros H. apply (Qpower_lt_compat_l_inv 2); [exact H | reflexivity]. Qed.

Lemma pow2_inject (a : Z) : (0 <= a)%Z -> pow2 a == inject_Z (2 ^ a).
Proof. intros H. unfold pow2. now rewrite (Zpower_Qpower 2 a H). Qed.

Lemma round_half_even_cases (x : Q) :
  let f := Qfloor x in
  (x - inject_Z f < 1 # 2 /\ round_half_even x = f) \/
  (1 # 2 < x - inject_Z f /\ round_half_even x = (f + 1)%Z) \/
  (x - inject_Z f == 1 # 2 /\
   round_half_even x = if Z.even f then f else (f + 1)%Z).
Proof.
  intros f. unfold round_half_even. fold f.
  destruct (Qcompare_spec (x - inject_Z f) (1 # 2)) as [E|L|G]; tauto.
Qed.

Lemma round_half_even_floor (x : Q) :
  (Qfloor x <= round_half_even x <= Qfloor x + 1)%Z.
Proof.
  destruct (round_half_even_cases x) as [[_ ->]|[[_ ->]|[_ ->]]]; try lia.
  destruct (Z.even (Qfloor x)); lia.
Qed.

Lemma round_half_even_mono (x y : Q) :
  x <= y -> (round_half_even x <= round_half_even y)%Z.
Proof.
  intros Hxy. pose proof (Qfloor_resp_le _ _ Hxy) as Hf.
  pose proof (round_half_even_floor x) as Bx.
  pose proof (round_half_even_floor y) as By.
  destruct (Z.eq_dec (Qfloor x) (Qfloor y)) as [E|N]; [|lia].
  assert (Hfrac : x - inject_Z (Qfloor x) <= y - inject_Z (Qfloor y)).
  { rewrite E. unfold Qminus. apply Qplus_le_compat; [exact Hxy|apply Qle_refl]. }
  destruct (round_half_even_cases y) as [[Hy Ry]|[[Hy Ry]|[Hy Ry]]].
  - destruct (round_half_even_cases x) as [[Hx Rx]|[[Hx Rx]|[Hx Rx]]].
    + lia.
    + exfalso. apply (Qlt_irrefl (1 # 2)).
      eapply Qlt_le_trans; [exact Hx|]. eapply Qle_trans; [exact Hfrac|].
      now apply Qlt_le_weak.
    + exfalso. apply (Qlt_irrefl (1 # 2)). rewrite <- Hx at 1.
      eapply Qle_lt_trans; [exact Hfrac | exact Hy].
  - lia.
  - destruct (round_half_even_cases x) as [[Hx Rx]|[[Hx Rx]|[Hx Rx]]].
    + destruct (Z.even (Qfloor y)); lia.
    + exfalso. apply (Qlt_irrefl (1 # 2)).
      eapply Qlt_le_trans; [exact Hx|]. now rewrite <- Hy.
    + rewrite Rx, Ry, E. lia.
Qed.

Lemma round_half_even_inject (z : Z) : round_half_even (inject_Z z) = z.
Proof.
  unfold round_half_even. rewrite Qfloor_Z.
  assert (H : inject_Z z - inject_Z z < 1 # 2).
  { setoid_replace (inject_Z z - inject_Z z) with 0 by ring. reflexivity. }
  destruct (Qcompare_spec (inject_Z z - inject_Z z) (1 # 2)) as [E|L|G].
  - rewrite E in H. discriminate H.
  - reflexivity.
  - exfalso. exact (Qlt_irrefl _ (Qlt_trans _ _ _ G H)).
Qed.

Lemma round_half_even_lower (a : Z) (x : Q) :
  inject_Z a <= x -> (a <= round_half_even x)%Z.
Proof.
  intros H. rewrite <- (round_half_even_inject a).
  now apply round_half_even_mono.
Qed.

Lemma round_half_even_upper (b : Z) (x : Q) :
  x <= inject_Z b -> (round_half_even x <= b)%Z.
Proof.
  intros H. rewrite <- (round_half_even_inject b).
  now apply round_half_even_mono.
Qed.

Lemma Qmake_times_den (q : Q) : q * inject_Z (Zpos (Qden q)) == inject_Z (Qnum q).
Proof. destruct q as [n d]. unfold Qeq, Qmult, inject_Z. simpl. lia. Qed.

Lemma Qnum_pos (q : Q) : 0 < q -> (0 < Qnum q)%Z.
Proof. destruct q as [n d]. unfold Qlt. simpl. lia. Qed.

Lemma binade_spec (q : Q) :
  0 < q -> pow2 (binade q) <= q /\ q < pow2 (binade q + 1).
Proof.
  intros Hq.
  pose proof (Qnum_pos q Hq) as Hn.
  set (a := Z.log2 (Qnum q)). set (b := Z.log2 (Zpos (Qden q))).
  pose proof (Z.log2_nonneg (Qnum q)) as Ha0. fold a in Ha0.
  pose proof (Z.log2_nonneg (Zpos (Qden q))) as Hb0. fold b in Hb0.
  destruct (Z.log2_spec (Qnum q) Hn) as [Ha1 Ha2]. fold a in Ha1, Ha2.
  destruct (Z.log2_spec (Zpos (Qden q)) ltac:(lia)) as [Hb1 Hb2].
  fold b in Hb1, Hb2.
  assert (Hd : 0 < inject_Z (Zpos (Qden q))) by reflexivity.
  assert (U : q < pow2 (a - b + 1)).
  { apply (Qmult_lt_r _ _ (pow2 b) (pow2_pos b)).
    rewrite <- pow2_plus. replace (a - b + 1 + b)%Z with (Z.succ a) by lia.
    apply Qle_lt_trans with (q * inject_Z (Zpos (Qden q))).
    - apply Qmult_le_l; [exact Hq|]. rewrite pow2_inject by lia.
      now rewrite <- Zle_Qle.
    - rewrite Qmake_times_den, pow2_inject by lia. now rewrite <- Zlt_Qlt. }
  assert (L : pow2 (a - b - 1) <= q).
  { apply Qlt_le_weak.
    apply (Qmult_lt_r _ _ (pow2 (Z.succ b)) (pow2_pos _)).
    rewrite <- pow2_plus. replace (a - b - 1 + Z.succ b)%Z with a by lia.
    apply Qle_lt_trans with (q * inject_Z (Zpos (Qden q))).
    - rewrite Qmake_times_den, pow2_inject by lia. now rewrite <- Zle_Qle.
    - apply Qmult_lt_l; [exact Hq|]. rewrite pow2_inject by lia.
      now rewrite <- Zlt_Qlt. }
  unfold binade. fold a b.
  destruct (Qle_bool (pow2 (a - b)) q) eqn:B.
  - apply Qle_bool_iff in B. split; assumption.
  - split; [exact L|].
    replace (a - b - 1 + 1)%Z with (a - b)%Z by lia.
    apply Qnot_le_lt. intros C. apply Qle_bool_iff in C. congruence.
Qed.

Lemma binade_mono (x y : Q) : 0 < x -> x <= y -> (binade x <= binade y)%Z.
Proof.
  intros Hx Hxy.
  assert (Hy : 0 < y) by (eapply Qlt_le_trans; eassumption).
  destruct (binade_spec x Hx) as [Lx _].
  destruct (binade_spec y Hy) as [_ Uy].
  assert (H : pow2 (binade x) < pow2 (binade y + 1)).
  { eapply Qle_lt_trans; [exact Lx|]. eapply Qle_lt_trans; eassumption. }
  apply pow2_lt_inv in H. lia.
Qed.

Lemma scaled_bounds (q : Q) :
  0 < q ->
  inject_Z (2 ^ 52) <= q / pow2 (binade q - 52) /\
  q / pow2 (binade q - 52) <= inject_Z (2 ^ 53).
Proof.
  intros Hq. destruct (binade_spec q Hq) as [L U].
  set (s := (binade q - 52)%Z) in *.
  pose proof (pow2_pos s) as Hs.
  rewrite <- !pow2_inject by lia. split.
  - apply Qle_shift_div_l; [exact Hs|]. rewrite <- pow2_plus.
    now replace (52 + s)%Z with (binade q) by (unfold s; lia).
  - apply Qle_shift_div_r; [exact Hs|]. rewrite <- pow2_plus.
    replace (53 + s)%Z with (binade q + 1)%Z by (unfold s; lia).
    now apply Qlt_le_weak.
Qed.

Lemma round53_pos_bounds (q : Q) :
  0 < q ->
  pow2 (binade q) <= round53_pos q /\ round53_pos q <= pow2 (binade q + 1).
Proof.
  intros Hq. destruct (scaled_bounds q Hq) as [L U].
  unfold round53_pos. set (s := (binade q - 52)%Z) in *.
  pose proof (pow2_pos s) as Hs.
  apply round_half_even_lower in L. apply round_half_even_upper in U.
  split.
  - replace (binade q) with (52 + s)%Z at 1 by (unfold s; lia).
    rewrite pow2_plus. apply Qmult_le_compat_r; [|now apply Qlt_le_weak].
    rewrite (pow2_inject 52) by lia. now rewrite <- Zle_Qle.
  - replace (binade q + 1)%Z with (53 + s)%Z by (unfold s; lia).
    rewrite pow2_plus. apply Qmult_le_compat_r; [|now apply Qlt_le_weak].
    rewrite (pow2_inject 53) by lia. now rewrite <- Zle_Qle.
Qed.

Lemma round53_pos_mono (x y : Q) :
  0 < x -> x <= y -> round53_pos x <= round53_pos y.
Proof.
  intros Hx Hxy.
  assert (Hy : 0 < y) by (eapply Qlt_le_trans; eassumption).
  pose proof (binade_mono x y Hx Hxy) as Hb.
  destruct (Z.eq_dec (binade x) (binade y)) as [E|N].
  - unfold round53_pos. rewrite E.
    set (s := (binade y - 52)%Z). pose proof (pow2_pos s) as Hs.
    apply Qmult_le_compat_r; [|now apply Qlt_le_weak].
    rewrite <- Zle_Qle. apply round_half_even_mono.
    unfold Qdiv. apply Qmult_le_compat_r; [exact Hxy|].
    apply Qlt_le_weak, Qinv_lt_0_compat, Hs.
  - destruct (round53_pos_bounds x Hx) as [_ Ux].
    destruct (round53_pos_bounds y Hy) as [Ly _].
    eapply Qle_trans; [exact Ux|]. eapply Qle_trans; [|exact Ly].
    apply pow2_le. lia.
Qed.

Lemma round53_pos_positive (q : Q) : 0 < q -> 0 < round53_pos q.
Proof.
  intros Hq. destruct (round53_pos_bounds q Hq) as [L _].
  eapply Qlt_le_trans; [apply pow2_pos | exact L].
Qed.

Lemma round53_comp (x y : Q) : x == y -> round53 x = round53 y.
Proof. intros H. unfold round53. now rewrite (Qred_complete x y H). Qed.

Lemma round53_sign (q : Q) :
  (q == 0 /\ round53 q = 0) \/
  (0 < q /\ round53 q == round53_pos (Qred q)) \/
  (q < 0 /\ round53 q == - round53_pos (- Qred q)).
Proof.
  unfold round53. pose proof (Qred_correct q) as R.
  destruct (Qcompare_spec (Qred q) 0) as [E|L|G].
  - left. split; [now rewrite <- R | reflexivity].
  - right; right. split; [now rewrite <- R | apply Qred_correct].
  - right; left. split; [now rewrite <- R | apply Qred_correct].
Qed.

Lemma round53_positive (q : Q) : 0 < q -> 0 < round53 q.
Proof.
  intros Hq. destruct (round53_sign q) as [[E _]|[[_ ->]|[L _]]].
  - rewrite E in Hq. discriminate.
  - apply round53_pos_positive. now rewrite Qred_correct.
  - exfalso. exact (Qlt_irrefl _ (Qlt_trans _ _ _ Hq L)).
Qed.

Lemma round53_negative (q : Q) : q < 0 -> round53 q < 0.
Proof.
  intros Hq. destruct (round53_sign q) as [[E _]|[[L _]|[_ ->]]].
  - rewrite E in Hq. discriminate.
  - exfalso. exact (Qlt_irrefl _ (Qlt_trans _ _ _ Hq L)).
  - assert (P : 0 < round53_pos (- Qred q)).
    { apply round53_pos_positive. rewrite Qred_correct.
      apply (Qopp_lt_compat q 0) in Hq. exact Hq. }
    apply (Qopp_lt_compat 0 _) in P. exact P.
Qed.

Lemma round53_nonneg (q : Q) : 0 <= q -> 0 <= round53 q.
Proof.
  intros Hq. destruct (round53_sign q) as [[_ ->]|[[L _]|[L _]]].
  - apply Qle_refl.
  - now apply Qlt_le_weak, round53_positive.
  - exfalso. exact (Qlt_not_le _ _ L Hq).
Qed.

Lemma round53_mono (x y : Q) : x <= y -> round53 x <= round53 y.
Proof.
  intros Hxy.
  destruct (round53_sign x) as [[Ex Rx]|[[Lx Rx]|[Lx Rx]]].
  - rewrite Rx. apply round53_nonneg. now rewrite <- Ex.
  - assert (Ly : 0 < y) by (eapply Qlt_le_trans; eassumption).
    destruct (round53_sign y) as [[Ey _]|[[_ Ry]|[Gy _]]].
    + rewrite Ey in Ly. discriminate.
    + rewrite Rx, Ry. apply round53_pos_mono; rewrite !Qred_correct;
        assumption.
    + exfalso. exact (Qlt_irrefl _ (Qlt_trans _ _ _ Ly Gy)).
  - destruct (round53_sign y) as [[Ey Ry]|[[Ly Ry]|[Ly Ry]]].
    + rewrite Ry. now apply Qlt_le_weak, round53_negative.
    + apply Qle_trans with 0.
      * now apply Qlt_le_weak, round53_negative.
      * now apply Qlt_le_weak, round53_positive.
    + rewrite Rx, Ry. apply Qopp_le_compat.
      apply round53_pos_mono; rewrite !Qred_correct.
      * apply (Qopp_lt_compat y 0) in Ly. exact Ly.
      * now apply Qopp_le_compat.
Qed.

Lemma round53_1 : round53 1 = 1.
Proof. reflexivity. Qed.

Lemma round53_100 : round53 100 = 100.
Proof. reflexivity. Qed.

(** [round53] gives the doubles that the kernel's binary64 division and
    multiplication give, on operands around the caps and ratios of image
    comparison. *)
Lemma round53_agrees_with_binary64 :
  List.forallb agrees_with_binary64
    [ ((100, 1), (29, 100)); ((10, 1), (7, 10)); ((7, 100), (100, 1));
      ((7, 1), (100, 1)); ((1, 10000), (100, 1)); ((1, 3), (3, 7));
      ((640 * 480, 1), (1, 100)); ((1920 * 1080, 1), (5, 1000));
      ((123456789, 1000), (987654321, 1)); ((1, 3), (100, 1));
      ((2, 3), (100, 1)); ((4503599627370497, 1), (3, 1));
      ((9007199254740991, 2), (1, 9007199254740991));
      ((33, 100), (300 * 300, 1)); ((57, 1000), (1, 7)) ]%Z = true.
Proof. vm_compute. reflexivity. Qed.

Section Properties.

Context {ext : Externals}.

Lemma diff_prettyTerminal_loop_join (diffs : list (Z * string)) :
  forall (x : nat) (html : js_array),
    (List.length html <= x)%nat ->
    array_join (diff_prettyTerminal_loop diffs x html) =
    array_join html ++ List.fold_right (fun d rest => cell d ++ rest) "" diffs.
Proof.
  induction diffs as [|[op text] diffs IH]; intros x html Hx; simpl.
  - now rewrite append_empty_r.
  - unfold cell at 1; simpl.
    destruct (op =? DIFF_INSERT)%Z;
      [|destruct (op =? DIFF_DELETE)%Z; [|destruct (op =? DIFF_EQUAL)%Z]].
    1-3: match goal with
         | |- context [array_set ?h ?i ?v] =>
             destruct (array_set_past_end h i v Hx) as [J L]
         end;
         rewrite IH by lia; rewrite J; apply append_assoc.
    rewrite IH by lia. reflexivity.
Qed.

Lemma cell_encode_edit (e : TextEdit) :
  DIFF_INSERT <> DIFF_DELETE ->
  DIFF_INSERT <> DIFF_EQUAL ->
  DIFF_DELETE <> DIFF_EQUAL ->
  cell (encode_edit e) = render_edit e.
Proof.
  intros Hid Hie Hde. destruct e as [[| |] text];
    unfold cell, encode_edit, render_edit; simpl.
  - now rewrite Z.eqb_refl.
  - destruct (Z.eqb_spec DIFF_DELETE DIFF_INSERT) as [E|_];
      [now symmetry in E|]. now rewrite Z.eqb_refl.
  - destruct (Z.eqb_spec DIFF_EQUAL DIFF_INSERT) as [E|_];
      [now symmetry in E|].
    destruct (Z.eqb_spec DIFF_EQUAL DIFF_DELETE) as [E|_];
      [now symmetry in E|]. now rewrite Z.eqb_refl.
Qed.

Lemma diff_prettyTerminal_edits (edits : list TextEdit) :
  DIFF_INSERT <> DIFF_DELETE ->
  DIFF_INSERT <> DIFF_EQUAL ->
  DIFF_DELETE <> DIFF_EQUAL ->
  diff_prettyTerminal (List.map encode_edit edits) = render_edits edits.
Proof.
  intros Hid Hie Hde. unfold diff_prettyTerminal.
  rewrite diff_prettyTerminal_loop_join by (simpl; lia). simpl.
  induction edits as [|e edits IH]; simpl; [reflexivity|].
  now rewrite cell_encode_edit, IH.
Qed.

(** *** The registry *)

Lemma getComparator_text :
  getComparator "text/plain" =
  fun actual expected _ => Return (compareText actual expected).
Proof. reflexivity. Qed.

Lemma getComparator_other (mimeType : string) :
  mimeType <> "image/png" -> mimeType <> "image/jpeg" ->
  mimeType <> "text/plain" ->
  getComparator mimeType =
  fun actual expected _ => Return (compareBuffersOrStrings actual expected).
Proof.
  intros Hpng Hjpeg Htext. unfold getComparator.
  destruct (String.eqb_spec mimeType "image/png"); [contradiction|].
  destruct (String.eqb_spec mimeType "image/jpeg"); [contradiction|].
  destruct (String.eqb_spec mimeType "text/plain"); [contradiction|].
  reflexivity.
Qed.

Lemma mimeType_cases (mimeType : string) :
  mimeType = "image/png" \/ mimeType = "image/jpeg" \/
  mimeType = "text/plain" \/
  (mimeType <> "image/png" /\ mimeType <> "image/jpeg" /\
   mimeType <> "text/plain").
Proof.
  destruct (string_dec mimeType "image/png"); [tauto|].
  destruct (string_dec mimeType "image/jpeg"); [tauto|].
  destruct (string_dec mimeType "text/plain"); tauto.
Qed.

(** C2: selection by content type is a total function: ['image/png'] and
    ['image/jpeg'] give the image comparator bound to that sub-format,
    ['text/plain'] the text comparator, and every other string, the empty
    one included, the binary comparator. *)
Theorem getComparator_selection (mimeType : string) :
  ((mimeType = "image/png" /\
    getComparator mimeType = compareImages "image/png") \/
   (mimeType = "image/jpeg" /\
    getComparator mimeType = compareImages "image/jpeg") \/
   (mimeType = "text/plain" /\
    getComparator mimeType =
    fun actual expected _ => Return (compareText actual expected)) \/
   (mimeType <> "image/png" /\ mimeType <> "image/jpeg" /\
    mimeType <> "text/plain" /\
    getComparator mimeType =
    fun actual expected _ =>
      Return (compareBuffersOrStrings actual expected))) /\
  getComparator "" =
  fun actual expected _ => Return (compareBuffersOrStrings actual expected).
Proof.
  split; [|reflexivity].
  destruct (mimeType_cases mimeType)
    as [->|[->|[->|(Hpng & Hjpeg & Htext)]]].
  - left. split; reflexivity.
  - right; left. split; reflexivity.
  - right; right; left. split; reflexivity.
  - right; right; right. repeat split; try assumption.
    now apply getComparator_other.
Qed.

(** *** The image comparator, step by step *)

Lemma compareImages_not_buffer (mimeType : string) (actual : JsValue)
    (expectedBuffer : Buffer) (options : option ImageComparatorOptions) :
  instanceof_Buffer actual = false ->
  compareImages mimeType actual expectedBuffer options =
  Return (Some {| errorMessage := "Actual result should be a Buffer.";
                  diff := None |}).
Proof. destruct actual; simpl; intros H; try discriminate; reflexivity. Qed.

Lemma compareImages_dimensions (mimeType : string)
    (actualBuffer expectedBuffer : Buffer)
    (options : option ImageComparatorOptions) (actual expected : Image) :
  decode mimeType actualBuffer = Return actual ->
  decode mimeType expectedBuffer = Return expected ->
  width expected <> width actual \/ height expected <> height actual ->
  compareImages mimeType (Buf actualBuffer) expectedBuffer options =
  Return (Some {| errorMessage := dimension_message expected actual;
                  diff := None |}).
Proof.
  intros Ha He Hdim. unfold compareImages. rewrite Ha, He. simpl.
  destruct (N.eqb_spec (width expected) (width actual)) as [Ew|Nw];
    [|reflexivity].
  destruct (N.eqb_spec (height expected) (height actual)) as [Eh|Nh];
    [|reflexivity].
  tauto.
Qed.

Lemma compareImages_dispatch (mimeType : string)
    (actualBuffer expectedBuffer : Buffer)
    (options : option ImageComparatorOptions) (actual expected : Image) :
  decode mimeType actualBuffer = Return actual ->
  decode mimeType expectedBuffer = Return expected ->
  width expected = width actual ->
  height expected = height actual ->
  compareImages mimeType (Buf actualBuffer) expectedBuffer options =
  r <- run_comparator (nullish options no_options) expected actual ;;
  Return
    (if Qgtb (inject_Z (Z.of_N (fst r)))
          (effective_cap (width expected * height expected)
             (nullish options no_options))
     then
       Some {|
         errorMessage :=
           string_of_N (fst r) ++ " pixels (ratio "
             ++ toFixed2
                  (reported_ratio (fst r) (width expected * height expected))
             ++ " of all image pixels) are different";
         diff := Some (PNG_sync_write (snd r)) |}
     else None).
Proof.
  intros Ha He Ew Eh. unfold compareImages. rewrite Ha, He. simpl.
  rewrite Ew, Eh, !N.eqb_refl. simpl.
  destruct (run_comparator (nullish options no_options) expected actual)
    as [[count diffimg]|e]; simpl; [|reflexivity].
  rewrite <- Ew, <- Eh.
  unfold effective_cap, reported_ratio, Math_min.
  destruct (maxDiffPixels (nullish options no_options)),
    (maxDiffPixelRatio (nullish options no_options)); reflexivity.
Qed.

(** C3: decoded images that differ in width or in height give a mismatch
    whose message reports both pairs of dimensions, and that mismatch
    carries no diff image. *)
Theorem compareImages_dimension_mismatch (mimeType : string)
    (actualBuffer expectedBuffer : Buffer)
    (options : option ImageComparatorOptions) (actual expected : Image) :
  decode mimeType actualBuffer = Return actual ->
  decode mimeType expectedBuffer = Return expected ->
  width expected <> width actual \/ height expected <> height actual ->
  compareImages mimeType (Buf actualBuffer) expectedBuffer options =
  Return (Some {|
    errorMessage :=
      "Expected an image " ++ string_of_N (width expected)
        ++ "px by " ++ string_of_N (height expected)
        ++ "px, received " ++ string_of_N (width actual)
        ++ "px by " ++ string_of_N (height actual) ++ "px. ";
    diff := None |}).
Proof. exact (compareImages_dimensions _ _ _ _ _ _). Qed.

Lemma Qgtb_true (a b : Q) : Qgtb a b = true <-> (b < a)%Q.
Proof.
  unfold Qgtb. rewrite Qgt_alt.
  destruct (a ?= b)%Q; split; intros H; (reflexivity || discriminate).
Qed.

Lemma Qgtb_false (a b : Q) : Qgtb a b = false <-> (a <= b)%Q.
Proof.
  split.
  - intros H. apply Qnot_lt_le. intros L. apply Qgtb_true in L. congruence.
  - intros H. destruct (Qgtb a b) eqn:E; [|reflexivity].
    apply Qgtb_true in E. exfalso. exact (Qlt_not_le _ _ E H).
Qed.

(** C1: on images of equal dimensions the verdict is a match exactly when
    the count of differing pixels is at most the effective cap (the minimum
    of the two caps when both are given, the given one when only one is,
    zero when none is), and a count above the cap gives a mismatch that
    carries the encoded diff image. *)
Theorem compareImages_effective_cap (mimeType : string)
    (actualBuffer expectedBuffer : Buffer)
    (options : option ImageComparatorOptions) (actual expected : Image)
    (count : N) (diffImage : Image) :
  decode mimeType actualBuffer = Return actual ->
  decode mimeType expectedBuffer = Return expected ->
  width expected = width actual ->
  height expected = height actual ->
  run_comparator (nullish options no_options) expected actual =
    Return (count, diffImage) ->
  let cap :=
    effective_cap (width expected * height expected)
      (nullish options no_options) in
  (compareImages mimeType (Buf actualBuffer) expectedBuffer options =
     Return None <-> (inject_Z (Z.of_N count) <= cap)%Q) /\
  ((cap < inject_Z (Z.of_N count))%Q ->
   exists message,
     compareImages mimeType (Buf actualBuffer) expectedBuffer options =
     Return (Some {| errorMessage := message;
                     diff := Some (PNG_sync_write diffImage) |})).
Proof.
  intros Ha He Ew Eh Hrun cap.
  rewrite (compareImages_dispatch _ _ _ _ _ _ Ha He Ew Eh), Hrun.
  simpl. fold cap. split.
  - rewrite <- Qgtb_false.
    destruct (Qgtb (inject_Z (Z.of_N count)) cap); split; intros H;
      (reflexivity || discriminate).
  - intros Hlt. apply Qgtb_true in Hlt. rewrite Hlt. eauto.
Qed.

(** C4, as amended: when the actual value is a buffer and both buffers
    decode to images of equal dimensions, a comparator name other than the
    two recognised ones makes the call throw, whatever the pixels are; no
    verdict is returned. *)
Theorem compareImages_unknown_comparator (mimeType : string)
    (actualBuffer expectedBuffer : Buffer)
    (options : ImageComparatorOptions) (actual expected : Image)
    (name : string) :
  decode mimeType actualBuffer = Return actual ->
  decode mimeType expectedBuffer = Return expected ->
  width expected = width actual ->
  height expected = height actual ->
  comparator options = Some name ->
  name <> "pixelmatch" ->
  name <> "ssim-cie94" ->
  compareImages mimeType (Buf actualBuffer) expectedBuffer (Some options) =
  Throw (Error ("Configuration specifies unknown comparator "
                  ++ dquote ++ name ++ dquote)).
Proof.
  intros Ha He Ew Eh Hname Hpm Hssim.
  rewrite (compareImages_dispatch _ _ _ _ _ _ Ha He Ew Eh). simpl.
  unfold run_comparator, comparator_is, comparator_text. rewrite Hname.
  simpl.
  destruct (String.eqb_spec name "ssim-cie94") as [E|_]; [contradiction|].
  destruct (String.eqb_spec name "pixelmatch") as [E|_]; [contradiction|].
  reflexivity.
Qed.

Lemma run_comparator_throws (options : ImageComparatorOptions)
    (expected actual : Image) (e : Exception) :
  run_comparator options expected actual = Throw e ->
  exists name,
    comparator options = Some name /\
    name <> "pixelmatch" /\ name <> "ssim-cie94" /\
    e = Error ("Configuration specifies unknown comparator "
                 ++ dquote ++ name ++ dquote).
Proof.
  unfold run_comparator, comparator_is, comparator_text.
  destruct (comparator options) as [name|]; simpl; [|discriminate].
  destruct (String.eqb_spec name "ssim-cie94") as [E|Hssim]; [discriminate|].
  destruct (String.eqb_spec name "pixelmatch") as [E|Hpm]; [discriminate|].
  intros [= <-]. exists name. repeat split; assumption.
Qed.

(** C9: the check that the actual value is a buffer and the check of the
    dimensions come before the dispatch on the comparator name.  Whatever
    the options are, an actual value that is not a buffer and decoded images
    of differing dimensions get their mismatch verdicts; and the error for
    an unknown comparator is thrown only for a buffer when both buffers
    decode to images of equal dimensions. *)
Theorem compareImages_checks_precede_dispatch (mimeType : string)
    (expectedBuffer : Buffer) (options : option ImageComparatorOptions) :
  (forall actual : JsValue,
     instanceof_Buffer actual = false ->
     compareImages mimeType actual expectedBuffer options =
     Return (Some {| errorMessage := "Actual result should be a Buffer.";
                     diff := None |})) /\
  (forall (actualBuffer : Buffer) (actual expected : Image),
     decode mimeType actualBuffer = Return actual ->
     decode mimeType expectedBuffer = Return expected ->
     width expected <> width actual \/ height expected <> height actual ->
     compareImages mimeType (Buf actualBuffer) expectedBuffer options =
     Return (Some {| errorMessage := dimension_message expected actual;
                     diff := None |})) /\
  (forall (actual : JsValue) (message : string),
     compareImages mimeType actual expectedBuffer options =
       Throw (Error message) ->
     exists (actualBuffer : Buffer) (decodedActual expected : Image)
            (name : string),
       actual = Buf actualBuffer /\
       decode mimeType actualBuffer = Return decodedActual /\
       decode mimeType expectedBuffer = Return expected /\
       width expected = width decodedActual /\
       height expected = height decodedActual /\
       comparator (nullish options no_options) = Some name /\
       name <> "pixelmatch" /\ name <> "ssim-cie94").
Proof.
  split; [|split].
  - intros actual Hnot. now apply compareImages_not_buffer.
  - intros actualBuffer actual expected Ha He Hdim.
    now apply compareImages_dimensions.
  - intros actual message Hthrow.
    destruct actual as [| | | | |actualBuffer|]; try discriminate Hthrow.
    destruct (decode mimeType actualBuffer) as [decodedActual|e] eqn:Ha.
    2:{ unfold compareImages in Hthrow. rewrite Ha in Hthrow. simpl in Hthrow.
        unfold decode, decoded in Ha.
        destruct (if mimeType =? "image/png" then _ else _);
          congruence. }
    destruct (decode mimeType expectedBuffer) as [expected|e] eqn:He.
    2:{ unfold compareImages in Hthrow. rewrite Ha, He in Hthrow.
        simpl in Hthrow. unfold decode, decoded in He.
        destruct (if mimeType =? "image/png" then _ else _);
          congruence. }
    destruct (N.eq_dec (width expected) (width decodedActual)) as [Ew|Nw].
    2:{ rewrite (compareImages_dimensions _ _ _ options _ _ Ha He) in Hthrow
          by tauto. discriminate. }
    destruct (N.eq_dec (height expected) (height decodedActual)) as [Eh|Nh].
    2:{ rewrite (compareImages_dimensions _ _ _ options _ _ Ha He) in Hthrow
          by tauto. discriminate. }
    rewrite (compareImages_dispatch _ _ _ _ _ _ Ha He Ew Eh) in Hthrow.
    destruct (run_comparator (nullish options no_options) expected
                decodedActual) as [r|e] eqn:Hrun; simpl in Hthrow;
      [discriminate|].
    apply run_comparator_throws in Hrun.
    destruct Hrun as (name & Hname & Hpm & Hssim & _).
    exists actualBuffer, decodedActual, expected, name.
    repeat split; assumption.
Qed.

Lemma effective_cap_below (pixels : N) (options : ImageComparatorOptions)
    (m : Q) :
  maxDiffPixels options = Some m ->
  (effective_cap pixels options <= m)%Q.
Proof.
  intros Hm. unfold effective_cap. rewrite Hm.
  destruct (maxDiffPixelRatio options) as [r|].
  - apply Q.le_min_l.
  - apply Qle_refl.
Qed.

(** C10: the range of the options is not validated.  A [maxDiffPixels]
    below zero makes the effective cap negative, and the verdict is then a
    mismatch for every count, the count zero of identical images
    included. *)
Theorem compareImages_negative_cap (mimeType : string)
    (actualBuffer expectedBuffer : Buffer)
    (options : option ImageComparatorOptions) (actual expected : Image)
    (count : N) (diffImage : Image) (m : Q) :
  decode mimeType actualBuffer = Return actual ->
  decode mimeType expectedBuffer = Return expected ->
  width expected = width actual ->
  height expected = height actual ->
  run_comparator (nullish options no_options) expected actual =
    Return (count, diffImage) ->
  maxDiffPixels (nullish options no_options) = Some m ->
  (m < 0)%Q ->
  (effective_cap (width expected * height expected)
     (nullish options no_options) < 0)%Q /\
  exists message,
    compareImages mimeType (Buf actualBuffer) expectedBuffer options =
    Return (Some {| errorMessage := message;
                    diff := Some (PNG_sync_write diffImage) |}).
Proof.
  intros Ha He Ew Eh Hrun Hm Hneg.
  assert (Hcap : (effective_cap (width expected * height expected)
                    (nullish options no_options) < 0)%Q).
  { eapply Qle_lt_trans; [apply effective_cap_below; eassumption|exact Hneg]. }
  split; [exact Hcap|].
  rewrite (compareImages_dispatch _ _ _ _ _ _ Ha He Ew Eh), Hrun. simpl.
  assert (Hgt : Qgtb (inject_Z (Z.of_N count))
                  (effective_cap (width expected * height expected)
                     (nullish options no_options)) = true).
  { apply Qgtb_true. eapply Qlt_le_trans; [exact Hcap|].
    change 0%Q with (inject_Z 0). rewrite <- Zle_Qle. lia. }
  rewrite Hgt. eauto.
Qed.

(** *** The text and binary comparators *)

(** C6: an actual value that is not a string gives the fixed mismatch
    whatever the expected buffer holds; a string equal to the UTF-8 decoding
    of the expected buffer gives a match; any other string gives a mismatch
    without diff payload whose message renders the edits in their order,
    insertions in the added style, deletions in the removed, struck-through
    style and equal spans verbatim. *)
Theorem compareText_verdicts (actual : JsValue) (expectedBuffer : Buffer) :
  (typeof_string actual = false ->
   compareText actual expectedBuffer =
   Some {| errorMessage := "Actual result should be a string";
           diff := None |}) /\
  (forall s : string,
     actual = Str s ->
     (s = toString_utf8 expectedBuffer ->
      compareText actual expectedBuffer = None) /\
     (s <> toString_utf8 expectedBuffer ->
      DIFF_INSERT <> DIFF_DELETE ->
      DIFF_INSERT <> DIFF_EQUAL ->
      DIFF_DELETE <> DIFF_EQUAL ->
      forall edits : list TextEdit,
        diff_cleanupSemantic (diff_main (toString_utf8 expectedBuffer) s) =
          List.map encode_edit edits ->
        compareText actual expectedBuffer =
        Some {| errorMessage := render_edits edits; diff := None |})).
Proof.
  split.
  - destruct actual; simpl; intros H; try discriminate; reflexivity.
  - intros s ->. simpl. split.
    + intros ->. now rewrite String.eqb_refl.
    + intros Hne Hid Hie Hde edits Hedits.
      destruct (String.eqb_spec (toString_utf8 expectedBuffer) s) as [E|_];
        [now symmetry in E|].
      now rewrite Hedits, diff_prettyTerminal_edits.
Qed.

(** C7: a string is handed over to the text comparator, under every content
    type that selects the binary comparator; a value that is neither a
    string nor a buffer gives the fixed mismatch; equal buffers match and
    unequal buffers give the mismatch [Buffers differ] without diff
    payload. *)
Theorem compareBuffersOrStrings_verdicts (actual : JsValue)
    (expectedBuffer : Buffer) :
  (forall s : string,
     actual = Str s ->
     compareBuffersOrStrings actual expectedBuffer =
       compareText actual expectedBuffer /\
     forall (mimeType : string) (options : option ImageComparatorOptions),
       mimeType <> "image/png" -> mimeType <> "image/jpeg" ->
       mimeType <> "text/plain" ->
       getComparator mimeType actual expectedBuffer options =
       Return (compareText actual expectedBuffer)) /\
  (typeof_string actual = false ->
   instanceof_Buffer actual = false ->
   compareBuffersOrStrings actual expectedBuffer =
   Some {| errorMessage := "Actual result should be a Buffer or a string.";
           diff := None |}) /\
  (forall b : Buffer,
     actual = Buf b ->
     (b = expectedBuffer ->
      compareBuffersOrStrings actual expectedBuffer = None) /\
     (b <> expectedBuffer ->
      compareBuffersOrStrings actual expectedBuffer =
      Some {| errorMessage := "Buffers differ"; diff := None |})).
Proof.
  split; [|split].
  - intros s ->. split; [reflexivity|].
    intros mimeType options Hpng Hjpeg Htext.
    now rewrite getComparator_other.
  - destruct actual; simpl; intros Hs Hb; try discriminate; reflexivity.
  - intros b ->. unfold compareBuffersOrStrings. simpl. split.
    + intros ->. now rewrite Buffer_compare_refl.
    + intros Hne.
      destruct (Z.eqb_spec (Buffer_compare b expectedBuffer) 0) as [E|_];
        [|reflexivity].
      apply Buffer_compare_eq in E. contradiction.
Qed.

(** C8, as amended: under every content type other than ['text/plain'], a
    buffer compared with itself, no options given, is a match, provided,
    for the two image types, that the buffer decodes and that the pixel-diff
    kernel finds no differing pixel between the decoded grid and itself. *)
Theorem self_comparison_matches (mimeType : string) (buffer : Buffer) :
  mimeType <> "text/plain" ->
  (mimeType = "image/png" \/ mimeType = "image/jpeg" ->
   exists img : Image,
     decode mimeType buffer = Return img /\
     fst (pixelmatch (data img) (data img)
            (data (PNG_new (width img) (height img)))
            (width img) (height img) (2 # 10)%Q) = 0%N) ->
  getComparator mimeType (Buf buffer) buffer None = Return None.
Proof.
  intros Htext Himage.
  destruct (mimeType_cases mimeType)
    as [E|[E|[E|(Hpng & Hjpeg & _)]]]; [| |contradiction|].
  1-2: destruct (Himage ltac:(tauto)) as (img & Hd & Hcount);
       subst mimeType;
       match goal with
       | |- getComparator ?m ?a ?e ?o = _ =>
           change (getComparator m a e o) with (compareImages m a e o)
       end;
       rewrite (compareImages_dispatch _ _ _ _ _ _ Hd Hd eq_refl eq_refl);
       unfold run_comparator, comparator_is; simpl; rewrite Hcount;
       reflexivity.
  rewrite getComparator_other by assumption.
  unfold compareBuffersOrStrings. simpl.
  now rewrite Buffer_compare_refl.
Qed.

(** *** The reported ratio *)





Lemma Qfloor_half (k : Z) : Qfloor (inject_Z k + (1 # 2)) = k.
Proof.
  assert (E : inject_Z k + (1 # 2) == (2 * k + 1) # 2).
  { unfold Qeq, inject_Z, Qplus. cbn [Qnum Qden]. lia. }
  rewrite (Qfloor_comp _ _ E). unfold Qfloor.
  symmetry. apply Z.div_unique with (r := 1%Z); lia.
Qed.

Lemma Qneg_nonneg (q : Q) : 0 <= q -> Qneg q = false.
Proof.
  intros H. unfold Qneg. destruct (Qcompare_spec q 0) as [E|L|G]; try reflexivity.
  exfalso. exact (Qlt_not_le _ _ L H).
Qed.

Lemma hundredths_exact (k : Z) : (0 <= k)%Z ->
  Qfloor (Qabs (inject_Z k / 100) * 100 + (1 # 2)) = k.
Proof.
  intros Hk. rewrite <- (Qfloor_half k) at 2. apply Qfloor_comp.
  assert (Hq : 0 <= inject_Z k / 100).
  { apply Qle_shift_div_l; [reflexivity|]. rewrite Qmult_0_l.
    change 0 with (inject_Z 0). now rewrite <- Zle_Qle. }
  rewrite (Qabs_pos _ Hq). field.
Qed.


Lemma inject_N_nonneg (n : N) : 0 <= inject_Z (Z.of_N n).
Proof. change 0 with (inject_Z 0). rewrite <- Zle_Qle. lia. Qed.

Lemma inject_N_zero (n : N) :
  Qeq_bool (inject_Z (Z.of_N n)) 0 = true -> n = 0%N.
Proof.
  intros H. apply Qeq_bool_eq in H. unfold Qeq in H. simpl in H. lia.
Qed.

Lemma inject_N_nonzero (n : N) :
  n <> 0%N -> Qeq_bool (inject_Z (Z.of_N n)) 0 = false.
Proof.
  intros H. destruct (Qeq_bool (inject_Z (Z.of_N n)) 0) eqn:E;
    [|reflexivity].
  now apply inject_N_zero in E.
Qed.

Lemma toFixed2_hundredths (k : N) :
  toFixed2 (Finite (inject_Z (Z.of_N k) / 100)) = hundredths k.
Proof.
  unfold toFixed2.
  rewrite Qneg_nonneg.
  2:{ apply Qle_shift_div_l; [reflexivity|]. rewrite Qmult_0_l.
      apply inject_N_nonneg. }
  rewrite hundredths_exact by lia. rewrite N2Z.id. reflexivity.
Qed.

Lemma reported_ratio_finite (count pixels : N) :
  pixels <> 0%N ->
  reported_ratio count pixels =
  Finite (round53 (inject_Z (Qceiling (percent count pixels)) / 100)).
Proof.
  intros Hp. unfold reported_ratio, of_N, num_div at 2.
  rewrite (inject_N_nonzero pixels Hp). reflexivity.
Qed.


Lemma quotient_positive (count pixels : N) :
  count <> 0%N -> pixels <> 0%N ->
  0 < inject_Z (Z.of_N count) / inject_Z (Z.of_N pixels).
Proof.
  intros Hc Hp.
  assert (Pc : 0 < inject_Z (Z.of_N count)).
  { change 0 with (inject_Z 0). rewrite <- Zlt_Qlt. lia. }
  assert (Pp : 0 < inject_Z (Z.of_N pixels)).
  { change 0 with (inject_Z 0). rewrite <- Zlt_Qlt. lia. }
  apply Qlt_shift_div_l; [exact Pp|]. now rewrite Qmult_0_l.
Qed.

Lemma percent_positive (count pixels : N) :
  count <> 0%N -> pixels <> 0%N -> 0 < percent count pixels.
Proof.
  intros Hc Hp. unfold percent. apply round53_positive.
  apply Qmult_lt_0_compat; [|reflexivity].
  apply round53_positive. now apply quotient_positive.
Qed.

Lemma Qceiling_nonneg (x : Q) : 0 <= x -> (0 <= Qceiling x)%Z.
Proof.
  intros H. rewrite Zle_Qle. eapply Qle_trans; [exact H|].
  apply Qle_ceiling.
Qed.

Lemma Qceiling_positive (x : Q) : 0 < x -> (0 < Qceiling x)%Z.
Proof.
  intros H. rewrite Zlt_Qlt. eapply Qlt_le_trans; [exact H|].
  apply Qle_ceiling.
Qed.

(** On every image of up to 64 pixels and every count, the percentage is
    the one the kernel's binary64 arithmetic computes. *)
Lemma percent_agrees_up_to_64_pixels :
  List.forallb
    (fun pixels : nat =>
       List.forallb
         (fun count : nat =>
            percent_agrees_with_binary64 (Z.of_nat count) (Z.of_nat pixels))
         (List.seq 0 (S pixels)))
    (List.seq 1 64) = true.
Proof. vm_compute. reflexivity. Qed.




End Properties.

(** ** Concrete runs *)

(** C8, as stated, fails: under ['text/plain'] the empty buffer compared
    with itself is a mismatch, since a buffer is not a string. *)
Lemma self_comparison_text_plain_mismatch :
  ~ (forall (ext : Externals) (mimeType : string) (buffer : Buffer),
       getComparator mimeType (Buf buffer) buffer None = Return None).
Proof.
  intros H. specialize (H Toy.platform "text/plain" []). discriminate H.
Qed.

(** C4, as stated, fails: with the unknown comparator name [bogus], a 1x1
    actual image against a 2x1 expected image is reported as a dimension
    mismatch, not thrown. *)
Lemma unknown_comparator_dimension_mismatch :
  ~ (forall (ext : Externals) (mimeType : string) (actual : JsValue)
            (expectedBuffer : Buffer) (options : ImageComparatorOptions)
            (name : string),
       comparator options = Some name ->
       name <> "pixelmatch" -> name <> "ssim-cie94" ->
       exists e : Exception,
         compareImages mimeType actual expectedBuffer (Some options) =
         Throw e).
Proof.
  intros H.
  destruct (H Toy.platform "image/png" (Buf Toy.black) Toy.wide
              (Toy.with_comparator "bogus") "bogus" eq_refl
              ltac:(discriminate) ltac:(discriminate)) as [e He].
  discriminate He.
Qed.

(** C1 on a run: 29 differing pixels out of 100 under the ratio 0.29.  The
    product of doubles [100 * 0.29] is 28.999999999999996, below 29. *)
Lemma compareImages_effective_cap_run :
  exists message,
    compareImages (ext := Toy.platform) "image/png"
      (Buf Boundary.spotted100) Boundary.plain100
      (Some (Boundary.with_ratio (29 # 100))) =
    Return (Some {| errorMessage := message;
                    diff := Some (Toy.write (Toy.blank 10 10)) |}).
Proof.
  assert (Hcap : effective_cap 100 (Boundary.with_ratio (29 # 100))
                 < inject_Z 29)
    by (vm_compute; reflexivity).
  exact (proj2
           (compareImages_effective_cap (ext := Toy.platform) "image/png"
              Boundary.spotted100 Boundary.plain100
              (Some (Boundary.with_ratio (29 # 100)))
              (Toy.pixels_of Boundary.spotted100)
              (Toy.pixels_of Boundary.plain100) 29
              (Toy.blank 10 10) eq_refl eq_refl eq_refl eq_refl eq_refl)
           Hcap).
Defined.

(** C3 on a run: a 1x1 image against a 2x1 baseline. *)
Lemma compareImages_dimension_mismatch_run :
  compareImages (ext := Toy.platform) "image/png" (Buf Toy.black) Toy.wide
    None =
  Return (Some {|
    errorMessage := "Expected an image 2px by 1px, received 1px by 1px. ";
    diff := None |}).
Proof.
  assert (Hwidth : width (Toy.pixels_of Toy.wide)
                   <> width (Toy.pixels_of Toy.black))
    by (vm_compute; discriminate).
  pose proof
    (compareImages_dimension_mismatch (ext := Toy.platform) "image/png"
       Toy.black Toy.wide None (Toy.pixels_of Toy.black)
       (Toy.pixels_of Toy.wide) eq_refl eq_refl (or_introl Hwidth))
    as Hrun.
  vm_compute in Hrun. vm_compute. exact Hrun.
Defined.

(** C4 on a run: equal dimensions and the comparator name [bogus]. *)
Lemma compareImages_unknown_comparator_run :
  compareImages (ext := Toy.platform) "image/jpeg" (Buf Toy.black)
    Toy.white (Some (Toy.with_comparator "bogus")) =
  Throw (Error ("Configuration specifies unknown comparator "
                  ++ dquote ++ "bogus" ++ dquote)).
Proof.
  exact (compareImages_unknown_comparator (ext := Toy.platform) "image/jpeg"
           Toy.black Toy.white (Toy.with_comparator "bogus")
           (Toy.pixels_of Toy.black) (Toy.pixels_of Toy.white) "bogus"
           eq_refl eq_refl eq_refl eq_refl eq_refl
           ltac:(discriminate) ltac:(discriminate)).
Defined.


(** C6 on a run: [abc] against the baseline [abd]. *)
Lemma compareText_verdicts_run :
  compareText (ext := Toy.platform) (Str "abc") [x61; x62; x64] =
  Some {| errorMessage := "<s><red>abd</red></s><ins>abc</ins>";
          diff := None |}.
Proof.
  pose proof
    (compareText_verdicts (ext := Toy.platform) (Str "abc") [x61; x62; x64])
    as [_ Hstring].
  destruct (Hstring "abc" eq_refl) as [_ Hdiffer].
  exact (Hdiffer ltac:(discriminate) ltac:(discriminate)
           ltac:(discriminate) ltac:(discriminate)
           [(Delete, "abd"); (Insert, "abc")] eq_refl).
Defined.

(** C7 on a run: two buffers that differ in their only byte. *)
Lemma compareBuffersOrStrings_verdicts_run :
  compareBuffersOrStrings (ext := Toy.platform) (Buf [x01]) [x02] =
  Some {| errorMessage := "Buffers differ"; diff := None |}.
Proof.
  pose proof
    (compareBuffersOrStrings_verdicts (ext := Toy.platform) (Buf [x01])
       [x02]) as (_ & _ & Hbuffer).
  destruct (Hbuffer [x01] eq_refl) as [_ Hdiffer].
  exact (Hdiffer ltac:(discriminate)).
Defined.

(** C8 on a run: a decodable image against itself. *)
Lemma self_comparison_matches_run :
  getComparator (ext := Toy.platform) "image/png" (Buf Toy.black) Toy.black
    None = Return None.
Proof.
  apply (self_comparison_matches (ext := Toy.platform) "image/png"
           Toy.black).
  - discriminate.
  - intros _. exists (Toy.pixels_of Toy.black). split; reflexivity.
Defined.

(** C9 on a run: a string as actual value and the comparator name
    [bogus]. *)
Lemma compareImages_checks_precede_dispatch_run :
  compareImages (ext := Toy.platform) "image/png" (Str "abc") Toy.black
    (Some (Toy.with_comparator "bogus")) =
  Return (Some {| errorMessage := "Actual result should be a Buffer.";
                  diff := None |}).
Proof.
  exact (proj1
           (compareImages_checks_precede_dispatch (ext := Toy.platform)
              "image/png" Toy.black
              (Some (Toy.with_comparator "bogus")))
           (Str "abc") eq_refl).
Defined.

(** C10 on a run: identical images and [maxDiffPixels] set to -1. *)
Lemma compareImages_negative_cap_run :
  (effective_cap 1 (Toy.with_caps (Some (-1)%Q) None) < 0)%Q /\
  exists message,
    compareImages (ext := Toy.platform) "image/png" (Buf Toy.black)
      Toy.black (Some (Toy.with_caps (Some (-1)%Q) None)) =
    Return (Some {| errorMessage := message;
                    diff := Some (Toy.write (Toy.blank 1 1)) |}).
Proof.
  exact (compareImages_negative_cap (ext := Toy.platform) "image/png"
           Toy.black Toy.black (Some (Toy.with_caps (Some (-1)%Q) None))
           (Toy.pixels_of Toy.black) (Toy.pixels_of Toy.black) 0
           (Toy.blank 1 1) (-1)%Q
           eq_refl eq_refl eq_refl eq_refl eq_refl eq_refl eq_refl).
Defined.

(** ** Further properties *)

Lemma fold_cells_app {A : Type} (f : A -> string) (a b : list A) :
  List.fold_right (fun d rest => f d ++ rest) "" (a ++ b) =
  List.fold_right (fun d rest => f d ++ rest) "" a
    ++ List.fold_right (fun d rest => f d ++ rest) "" b.
Proof.
  induction a as [|d a IH]; simpl; [reflexivity|].
  now rewrite IH, append_assoc.
Qed.

Lemma Qfloor_bound (z : Z) (q : Q) :
  inject_Z z <= q <-> (z <= Qfloor q)%Z.
Proof.
  split.
  - intros H. rewrite <- (Qfloor_Z z). now apply Qfloor_resp_le.
  - intros H. eapply Qle_trans; [|apply Qfloor_le]. now rewrite <- Zle_Qle.
Qed.

Section FurtherProperties.

Context {ext : Externals}.

(** *** The rendering loop *)

Lemma diff_prettyTerminal_cells (diffs : list (Z * string)) :
  diff_prettyTerminal diffs =
  List.fold_right (fun d rest => cell d ++ rest) "" diffs.
Proof.
  unfold diff_prettyTerminal.
  now rewrite diff_prettyTerminal_loop_join by (simpl; lia).
Qed.

Lemma cell_unrecognised (d : Z * string) : recognised d = false -> cell d = "".
Proof.
  unfold recognised, cell. intros H.
  apply orb_false_elim in H. destruct H as [H HE].
  apply orb_false_elim in H. destruct H as [HI HD].
  now rewrite HI, HD, HE.
Qed.

(** X1: rendering distributes over concatenation: the message of a diff
    list split in two is the message of the first part followed by the
    message of the second. *)
Theorem diff_prettyTerminal_app (a b : list (Z * string)) :
  diff_prettyTerminal (a ++ b) =
  diff_prettyTerminal a ++ diff_prettyTerminal b.
Proof. rewrite !diff_prettyTerminal_cells. apply fold_cells_app. Qed.

(** X2: the loop has no default case, so an entry whose tag is none of
    the three known ones leaves a hole that the join prints as nothing:
    rendering a list is rendering its entries with a known tag. *)
Theorem diff_prettyTerminal_drops_unknown (diffs : list (Z * string)) :
  diff_prettyTerminal diffs =
  diff_prettyTerminal (List.filter recognised diffs).
Proof.
  rewrite !diff_prettyTerminal_cells.
  induction diffs as [|d diffs IH]; simpl; [reflexivity|].
  destruct (recognised d) eqn:R; simpl.
  - now rewrite IH.
  - now rewrite (cell_unrecognised d R), IH.
Qed.

(** *** The text and binary comparators *)

(** X3: the text comparator reports a match only for the string that is
    the UTF-8 decoding of the expected buffer, whatever the diff library
    returns. *)
Theorem compareText_match_iff (actual : JsValue) (expectedBuffer : Buffer) :
  compareText actual expectedBuffer = None <->
  actual = Str (toString_utf8 expectedBuffer).
Proof.
  split.
  - destruct actual as [| | | |s| |]; simpl; try discriminate.
    destruct (String.eqb_spec (toString_utf8 expectedBuffer) s) as [E|_];
      [now intros _; subst s | discriminate].
  - intros ->. simpl. now rewrite String.eqb_refl.
Qed.

(** X4: the binary comparator reports a match only for the expected buffer
    itself and for the string that is its UTF-8 decoding. *)
Theorem compareBuffersOrStrings_match_iff (actual : JsValue)
    (expectedBuffer : Buffer) :
  compareBuffersOrStrings actual expectedBuffer = None <->
  actual = Buf expectedBuffer \/
  actual = Str (toString_utf8 expectedBuffer).
Proof.
  split.
  - destruct actual as [| | | |s|b|]; unfold compareBuffersOrStrings; simpl;
      try discriminate.
    + destruct (String.eqb_spec (toString_utf8 expectedBuffer) s) as [E|_];
        [intros _; subst s; now right | discriminate].
    + destruct (Z.eqb_spec (Buffer_compare b expectedBuffer) 0) as [E|_];
        [|discriminate].
      apply Buffer_compare_eq in E. intros _. subst b. now left.
  - intros [->| ->]; unfold compareBuffersOrStrings; simpl.
    + now rewrite Buffer_compare_refl.
    + now rewrite String.eqb_refl.
Qed.

Lemma compareText_no_diff (actual : JsValue) (expectedBuffer : Buffer)
    (mismatch : Mismatch) :
  compareText actual expectedBuffer = Some mismatch -> diff mismatch = None.
Proof.
  destruct actual as [| | | |s| |]; simpl; try (intros [= <-]; reflexivity).
  destruct (toString_utf8 expectedBuffer =? s); [discriminate|].
  intros [= <-]. reflexivity.
Qed.

Lemma compareBuffersOrStrings_no_diff (actual : JsValue)
    (expectedBuffer : Buffer) (mismatch : Mismatch) :
  compareBuffersOrStrings actual expectedBuffer = Some mismatch ->
  diff mismatch = None.
Proof.
  unfold compareBuffersOrStrings.
  destruct (typeof_string actual); [apply compareText_no_diff|].
  destruct actual as [| | | | |b|]; try (intros [= <-]; reflexivity).
  destruct (Buffer_compare b expectedBuffer =? 0)%Z; [discriminate|].
  intros [= <-]. reflexivity.
Qed.

(** *** The image comparator *)

Lemma decode_throws (mimeType : string) (buffer : Buffer) (e : Exception) :
  decode mimeType buffer = Throw e -> exists why, e = CodecException why.
Proof.
  unfold decode, decoded.
  destruct (if mimeType =? "image/png" then _ else _) as [img|why];
    [discriminate|].
  intros [= <-]. eauto.
Qed.

Lemma compareImages_actual_malformed (mimeType : string)
    (actualBuffer expectedBuffer : Buffer)
    (options : option ImageComparatorOptions) (e : Exception) :
  decode mimeType actualBuffer = Throw e ->
  compareImages mimeType (Buf actualBuffer) expectedBuffer options = Throw e.
Proof. intros Ha. unfold compareImages. now rewrite Ha. Qed.

Lemma compareImages_expected_malformed (mimeType : string)
    (actualBuffer expectedBuffer : Buffer)
    (options : option ImageComparatorOptions) (actual : Image)
    (e : Exception) :
  decode mimeType actualBuffer = Return actual ->
  decode mimeType expectedBuffer = Throw e ->
  compareImages mimeType (Buf actualBuffer) expectedBuffer options = Throw e.
Proof. intros Ha He. unfold compareImages. now rewrite Ha, He. Qed.

Lemma compareImages_verdict (mimeType : string)
    (actualBuffer expectedBuffer : Buffer)
    (options : option ImageComparatorOptions) (actual expected : Image) :
  decode mimeType actualBuffer = Return actual ->
  decode mimeType expectedBuffer = Return expected ->
  width expected = width actual ->
  height expected = height actual ->
  compareImages mimeType (Buf actualBuffer) expectedBuffer options =
  r <- run_comparator (nullish options no_options) expected actual ;;
  Return (threshold_verdict (nullish options no_options)
            (width expected * height expected) r).
Proof. exact (compareImages_dispatch _ _ _ _ _ _). Qed.

Lemma compareImages_run (mimeType : string) (actual : JsValue)
    (expectedBuffer : Buffer) (options : option ImageComparatorOptions) :
  ImageRun mimeType actual expectedBuffer options
    (compareImages mimeType actual expectedBuffer options).
Proof.
  destruct (instanceof_Buffer actual) eqn:Hb.
  2:{ rewrite compareImages_not_buffer by exact Hb. now constructor. }
  destruct actual as [| | | | |actualBuffer|]; try discriminate Hb.
  destruct (decode mimeType actualBuffer) as [decodedActual|e] eqn:Ha.
  2:{ destruct (decode_throws _ _ _ Ha) as [why ->].
      rewrite (compareImages_actual_malformed _ _ _ _ _ Ha).
      now apply RunActualMalformed with actualBuffer. }
  destruct (decode mimeType expectedBuffer) as [expected|e] eqn:He.
  2:{ destruct (decode_throws _ _ _ He) as [why ->].
      rewrite (compareImages_expected_malformed _ _ _ _ _ _ Ha He).
      now apply RunExpectedMalformed with actualBuffer decodedActual. }
  destruct (N.eq_dec (width expected) (width decodedActual)) as [Ew|Nw].
  2:{ rewrite (compareImages_dimensions _ _ _ options _ _ Ha He) by tauto.
      apply RunDimensions with actualBuffer; tauto. }
  destruct (N.eq_dec (height expected) (height decodedActual)) as [Eh|Nh].
  2:{ rewrite (compareImages_dimensions _ _ _ options _ _ Ha He) by tauto.
      apply RunDimensions with actualBuffer; tauto. }
  rewrite (compareImages_verdict _ _ _ _ _ _ Ha He Ew Eh).
  now apply RunCompared with actualBuffer.
Qed.

Lemma run_comparator_fill_defaults (o : ImageComparatorOptions)
    (expected actual : Image) :
  run_comparator (fill_defaults o) expected actual =
  run_comparator o expected actual.
Proof.
  unfold run_comparator, comparator_is, comparator_text, fill_defaults.
  simpl. destruct (comparator o) as [c|]; simpl.
  - destruct (c =? "ssim-cie94"); [reflexivity|].
    destruct (c =? "pixelmatch"); reflexivity.
  - reflexivity.
Qed.

Lemma run_comparator_ssim (o : ImageComparatorOptions) (t : option Q)
    (expected actual : Image) :
  comparator o = Some "ssim-cie94" ->
  run_comparator (set_threshold t o) expected actual =
  run_comparator o expected actual.
Proof.
  intros Hc. unfold run_comparator, comparator_is, set_threshold. simpl.
  rewrite Hc. reflexivity.
Qed.

Lemma compareImages_same_run (mimeType : string) (actual : JsValue)
    (expectedBuffer : Buffer) (o1 o2 : ImageComparatorOptions) :
  (forall expected decodedActual,
     run_comparator o1 expected decodedActual =
     run_comparator o2 expected decodedActual) ->
  maxDiffPixels o1 = maxDiffPixels o2 ->
  maxDiffPixelRatio o1 = maxDiffPixelRatio o2 ->
  compareImages mimeType actual expectedBuffer (Some o1) =
  compareImages mimeType actual expectedBuffer (Some o2).
Proof.
  intros Hrun Hm Hr. unfold compareImages. simpl.
  destruct actual as [| | | | |actualBuffer|]; try reflexivity.
  destruct (decode mimeType actualBuffer) as [decodedActual|e];
    [|reflexivity].
  destruct (decode mimeType expectedBuffer) as [expected|e];
    [|reflexivity].
  simpl. rewrite Hrun, Hm, Hr. reflexivity.
Qed.

(** X5: leaving [threshold] and [comparator] out is the same as giving
    0.2 and [pixelmatch]: on every input, whether the options are omitted
    altogether or given, the call behaves as with the two defaults written
    out. *)
Theorem compareImages_defaults (mimeType : string) (actual : JsValue)
    (expectedBuffer : Buffer) (options : option ImageComparatorOptions) :
  compareImages mimeType actual expectedBuffer options =
  compareImages mimeType actual expectedBuffer
    (Some (fill_defaults (nullish options no_options))).
Proof.
  transitivity (compareImages mimeType actual expectedBuffer
                  (Some (nullish options no_options))).
  - destruct options; reflexivity.
  - symmetry. apply compareImages_same_run; try reflexivity.
    intros expected decodedActual. apply run_comparator_fill_defaults.
Qed.

(** X6: under the comparator [ssim-cie94] the [threshold] option is not
    read: changing it, or removing it, changes nothing in the outcome. *)
Theorem compareImages_ssim_ignores_threshold (mimeType : string)
    (actual : JsValue) (expectedBuffer : Buffer)
    (options : ImageComparatorOptions) (t : option Q) :
  comparator options = Some "ssim-cie94" ->
  compareImages mimeType actual expectedBuffer
    (Some (set_threshold t options)) =
  compareImages mimeType actual expectedBuffer (Some options).
Proof.
  intros Hc. apply compareImages_same_run; try reflexivity.
  intros expected decodedActual. now apply run_comparator_ssim.
Qed.

(** X7: a buffer that its codec rejects aborts the call with the codec's
    exception, before the dimensions and the comparator name are looked at.
    The actual buffer is decoded first, so its exception wins; JPEG data is
    decoded under a memory limit of 5120 MB. *)
Theorem malformed_image_aborts (actualBuffer expectedBuffer : Buffer)
    (options : option ImageComparatorOptions) (why : string) :
  (PNG_sync_read actualBuffer = Malformed why ->
   getComparator "image/png" (Buf actualBuffer) expectedBuffer options =
   Throw (CodecException why)) /\
  (jpegjs_decode actualBuffer 5120 = Malformed why ->
   getComparator "image/jpeg" (Buf actualBuffer) expectedBuffer options =
   Throw (CodecException why)) /\
  (forall decodedActual : Image,
     PNG_sync_read actualBuffer = Pixels decodedActual ->
     PNG_sync_read expectedBuffer = Malformed why ->
     getComparator "image/png" (Buf actualBuffer) expectedBuffer options =
     Throw (CodecException why)) /\
  (forall decodedActual : Image,
     jpegjs_decode actualBuffer 5120 = Pixels decodedActual ->
     jpegjs_decode expectedBuffer 5120 = Malformed why ->
     getComparator "image/jpeg" (Buf actualBuffer) expectedBuffer options =
     Throw (CodecException why)).
Proof.
  repeat split.
  - intros Ha. apply compareImages_actual_malformed.
    unfold decode. simpl. now rewrite Ha.
  - intros Ha. apply compareImages_actual_malformed.
    unfold decode. simpl.
    change JPEG_JS_MAX_BUFFER_SIZE_IN_MB with 5120%N. now rewrite Ha.
  - intros decodedActual Ha He.
    apply compareImages_expected_malformed with decodedActual;
      unfold decode; simpl; [now rewrite Ha | now rewrite He].
  - intros decodedActual Ha He.
    apply compareImages_expected_malformed with decodedActual;
      unfold decode; simpl;
      change JPEG_JS_MAX_BUFFER_SIZE_IN_MB with 5120%N;
      [now rewrite Ha | now rewrite He].
Qed.

(** *** Verdicts of the image comparator *)

Lemma threshold_verdict_None (options : ImageComparatorOptions) (pixels : N)
    (r : N * Image) :
  threshold_verdict options pixels r = None <->
  inject_Z (Z.of_N (fst r)) <= effective_cap pixels options.
Proof.
  unfold threshold_verdict. rewrite <- Qgtb_false.
  destruct (Qgtb _ _); split; intros H; (reflexivity || discriminate).
Qed.

Lemma threshold_verdict_Some (options : ImageComparatorOptions) (pixels : N)
    (r : N * Image) (mismatch : Mismatch) :
  threshold_verdict options pixels r = Some mismatch ->
  effective_cap pixels options < inject_Z (Z.of_N (fst r)) /\
  mismatch = {| errorMessage := count_message (fst r) pixels;
                diff := Some (PNG_sync_write (snd r)) |}.
Proof.
  unfold threshold_verdict.
  destruct (Qgtb _ _) eqn:G; [|discriminate].
  apply Qgtb_true in G. intros [= <-]. now split.
Qed.

Lemma compareImages_match_intro (mimeType : string)
    (actualBuffer expectedBuffer : Buffer)
    (options : option ImageComparatorOptions) (actual expected : Image)
    (r : N * Image) :
  decode mimeType actualBuffer = Return actual ->
  decode mimeType expectedBuffer = Return expected ->
  width expected = width actual ->
  height expected = height actual ->
  run_comparator (nullish options no_options) expected actual = Return r ->
  inject_Z (Z.of_N (fst r))
    <= effective_cap (width expected * height expected)
         (nullish options no_options) ->
  compareImages mimeType (Buf actualBuffer) expectedBuffer options =
  Return None.
Proof.
  intros Ha He Ew Eh Hrun Hle.
  rewrite (compareImages_verdict _ _ _ _ _ _ Ha He Ew Eh), Hrun. simpl.
  f_equal. now apply threshold_verdict_None.
Qed.

Lemma compareImages_match_inv (mimeType : string) (actual : JsValue)
    (expectedBuffer : Buffer) (options : option ImageComparatorOptions) :
  compareImages mimeType actual expectedBuffer options = Return None ->
  exists (actualBuffer : Buffer) (decodedActual expected : Image)
         (r : N * Image),
    actual = Buf actualBuffer /\
    decode mimeType actualBuffer = Return decodedActual /\
    decode mimeType expectedBuffer = Return expected /\
    width expected = width decodedActual /\
    height expected = height decodedActual /\
    run_comparator (nullish options no_options) expected decodedActual
      = Return r /\
    inject_Z (Z.of_N (fst r))
      <= effective_cap (width expected * height expected)
           (nullish options no_options).
Proof.
  intros Hres.
  pose proof (compareImages_run mimeType actual expectedBuffer options)
    as Hview.
  rewrite Hres in Hview.
  inversion Hview as [ | | | |ab da ex Hact Ha He Ew Eh Hbind].
  destruct (run_comparator (nullish options no_options) ex da)
    as [r|e] eqn:Hrun; simpl in Hbind; [|discriminate].
  assert (Hverdict : threshold_verdict (nullish options no_options)
                       (width ex * height ex) r = None) by congruence.
  apply threshold_verdict_None in Hverdict.
  exists ab, da, ex, r. repeat split; assumption.
Qed.

(** X8: the image comparator reports a match only when the actual value is
    a buffer, both buffers decode, the dimensions agree, the comparator name
    is known, and the count of differing pixels is at most the effective
    cap; and it does report a match then. *)
Theorem compareImages_match_iff (mimeType : string) (actual : JsValue)
    (expectedBuffer : Buffer) (options : option ImageComparatorOptions) :
  compareImages mimeType actual expectedBuffer options = Return None <->
  exists (actualBuffer : Buffer) (decodedActual expected : Image)
         (r : N * Image),
    actual = Buf actualBuffer /\
    decode mimeType actualBuffer = Return decodedActual /\
    decode mimeType expectedBuffer = Return expected /\
    width expected = width decodedActual /\
    height expected = height decodedActual /\
    run_comparator (nullish options no_options) expected decodedActual
      = Return r /\
    inject_Z (Z.of_N (fst r))
      <= effective_cap (width expected * height expected)
           (nullish options no_options).
Proof.
  split.
  - apply compareImages_match_inv.
  - intros (ab & da & ex & r & -> & Ha & He & Ew & Eh & Hrun & Hle).
    now apply compareImages_match_intro with da ex r.
Qed.

Lemma compareImages_looser (mimeType : string) (actual : JsValue)
    (expectedBuffer : Buffer) (o1 o2 : ImageComparatorOptions) :
  (forall expected decodedActual,
     run_comparator o1 expected decodedActual =
     run_comparator o2 expected decodedActual) ->
  (forall pixels, effective_cap pixels o1 <= effective_cap pixels o2) ->
  compareImages mimeType actual expectedBuffer (Some o1) = Return None ->
  compareImages mimeType actual expectedBuffer (Some o2) = Return None.
Proof.
  intros Hsame Hcap Hres.
  destruct (compareImages_match_inv _ _ _ _ Hres)
    as (ab & da & ex & r & -> & Ha & He & Ew & Eh & Hrun & Hle).
  simpl in Hrun, Hle.
  apply compareImages_match_intro with da ex r; try assumption; simpl.
  - now rewrite <- Hsame.
  - eapply Qle_trans; [exact Hle | apply Hcap].
Qed.

Lemma pixels_times_le (pixels : N) (r1 r2 : Q) :
  r1 <= r2 ->
  inject_Z (Z.of_N pixels) * r1 <= inject_Z (Z.of_N pixels) * r2.
Proof.
  intros H. rewrite !(Qmult_comm (inject_Z (Z.of_N pixels))).
  apply Qmult_le_compat_r; [exact H | apply inject_N_nonneg].
Qed.

(** X9: the absolute cap is monotone: raising [maxDiffPixels], the other
    options unchanged, never turns a match into something else. *)
Theorem raising_maxDiffPixels_keeps_match (mimeType : string)
    (actual : JsValue) (expectedBuffer : Buffer)
    (options : ImageComparatorOptions) (m1 m2 : Q) :
  m1 <= m2 ->
  compareImages mimeType actual expectedBuffer
    (Some (set_maxDiffPixels (Some m1) options)) = Return None ->
  compareImages mimeType actual expectedBuffer
    (Some (set_maxDiffPixels (Some m2) options)) = Return None.
Proof.
  intros Hle. apply compareImages_looser; [reflexivity|].
  intros pixels. unfold effective_cap, set_maxDiffPixels. simpl.
  destruct (maxDiffPixelRatio options) as [r|]; [|exact Hle].
  now apply Q.min_le_compat_r.
Qed.

(** X10: the ratio cap is monotone: raising [maxDiffPixelRatio], the other
    options unchanged, never turns a match into something else. *)
Theorem raising_maxDiffPixelRatio_keeps_match (mimeType : string)
    (actual : JsValue) (expectedBuffer : Buffer)
    (options : ImageComparatorOptions) (r1 r2 : Q) :
  r1 <= r2 ->
  compareImages mimeType actual expectedBuffer
    (Some (set_maxDiffPixelRatio (Some r1) options)) = Return None ->
  compareImages mimeType actual expectedBuffer
    (Some (set_maxDiffPixelRatio (Some r2) options)) = Return None.
Proof.
  intros Hle. apply compareImages_looser; [reflexivity|].
  intros pixels. unfold effective_cap, set_maxDiffPixelRatio. simpl.
  destruct (maxDiffPixels options) as [m|].
  - apply Q.min_le_compat_l. now apply round53_mono, pixels_times_le.
  - now apply round53_mono, pixels_times_le.
Qed.

(** X11: the stricter bound wins: a comparison that matches with both caps
    given still matches when either cap is removed. *)
Theorem removing_a_cap_keeps_match (mimeType : string) (actual : JsValue)
    (expectedBuffer : Buffer) (options : ImageComparatorOptions) (m r : Q) :
  compareImages mimeType actual expectedBuffer
    (Some (set_maxDiffPixels (Some m)
             (set_maxDiffPixelRatio (Some r) options))) = Return None ->
  compareImages mimeType actual expectedBuffer
    (Some (set_maxDiffPixels (Some m)
             (set_maxDiffPixelRatio None options))) = Return None /\
  compareImages mimeType actual expectedBuffer
    (Some (set_maxDiffPixels None
             (set_maxDiffPixelRatio (Some r) options))) = Return None.
Proof.
  intros Hres. split; revert Hres; apply compareImages_looser;
    try reflexivity; intros pixels; unfold effective_cap; simpl.
  - apply Q.le_min_l.
  - apply Q.le_min_r.
Qed.

(** X12: only the integer part of the cap counts: on images of equal
    dimensions the verdict is a match exactly when the count is at most
    the cap rounded down, so a ratio cap that is not a whole number of
    pixels tolerates the whole pixels below it. *)
Theorem compareImages_cap_rounds_down (mimeType : string)
    (actualBuffer expectedBuffer : Buffer)
    (options : option ImageComparatorOptions) (actual expected : Image)
    (count : N) (diffImage : Image) :
  decode mimeType actualBuffer = Return actual ->
  decode mimeType expectedBuffer = Return expected ->
  width expected = width actual ->
  height expected = height actual ->
  run_comparator (nullish options no_options) expected actual =
    Return (count, diffImage) ->
  (compareImages mimeType (Buf actualBuffer) expectedBuffer options =
     Return None <->
   (Z.of_N count
      <= Qfloor (effective_cap (width expected * height expected)
                   (nullish options no_options)))%Z).
Proof.
  intros Ha He Ew Eh Hrun.
  rewrite (compareImages_verdict _ _ _ _ _ _ Ha He Ew Eh), Hrun. simpl.
  rewrite <- Qfloor_bound.
  rewrite <- (threshold_verdict_None (nullish options no_options)
                (width expected * height expected) (count, diffImage)).
  split; [now intros [= ->] | now intros ->].
Qed.

Lemma effective_cap_nonneg (pixels : N) (options : ImageComparatorOptions) :
  (forall m, maxDiffPixels options = Some m -> 0 <= m) ->
  (forall r, maxDiffPixelRatio options = Some r -> 0 <= r) ->
  0 <= effective_cap pixels options.
Proof.
  intros Hm Hr. unfold effective_cap.
  destruct (maxDiffPixels options) as [m|],
    (maxDiffPixelRatio options) as [r|].
  - apply Q.min_glb; [now apply Hm|]. apply round53_nonneg.
    apply Qmult_le_0_compat; [apply inject_N_nonneg | now apply Hr].
  - now apply Hm.
  - apply round53_nonneg.
    apply Qmult_le_0_compat; [apply inject_N_nonneg | now apply Hr].
  - apply Qle_refl.
Qed.

(** X13: with caps in their documented ranges (those that are given are
    not negative), images of equal dimensions on which the kernel counts no
    differing pixel always match. *)
Theorem no_difference_matches (mimeType : string)
    (actualBuffer expectedBuffer : Buffer)
    (options : option ImageComparatorOptions) (actual expected : Image)
    (diffImage : Image) :
  decode mimeType actualBuffer = Return actual ->
  decode mimeType expectedBuffer = Return expected ->
  width expected = width actual ->
  height expected = height actual ->
  run_comparator (nullish options no_options) expected actual =
    Return (0%N, diffImage) ->
  (forall m, maxDiffPixels (nullish options no_options) = Some m -> 0 <= m) ->
  (forall r,
     maxDiffPixelRatio (nullish options no_options) = Some r -> 0 <= r) ->
  compareImages mimeType (Buf actualBuffer) expectedBuffer options =
  Return None.
Proof.
  intros Ha He Ew Eh Hrun Hm Hr.
  apply compareImages_match_intro with actual expected (0%N, diffImage);
    try assumption.
  now apply effective_cap_nonneg.
Qed.

(** *** Payloads and exceptions over the whole registry *)

Lemma getComparator_image (mimeType : string) :
  mimeType = "image/png" \/ mimeType = "image/jpeg" ->
  getComparator mimeType = compareImages mimeType.
Proof. intros [->| ->]; reflexivity. Qed.

(** X14: a diff payload comes only out of a pixel comparison: whenever a
    comparator of the registry returns a mismatch with a payload, the
    content type is one of the two image types, the actual value is a
    buffer, both buffers decoded to images of equal dimensions, the count
    exceeded the effective cap, and the payload is the PNG encoding of the
    diff image the kernel filled. *)
Theorem diff_payload_only_for_compared_images (mimeType : string)
    (actual : JsValue) (expectedBuffer : Buffer)
    (options : option ImageComparatorOptions) (mismatch : Mismatch)
    (payload : Buffer) :
  getComparator mimeType actual expectedBuffer options =
    Return (Some mismatch) ->
  diff mismatch = Some payload ->
  (mimeType = "image/png" \/ mimeType = "image/jpeg") /\
  exists (actualBuffer : Buffer) (decodedActual expected : Image)
         (r : N * Image),
    actual = Buf actualBuffer /\
    decode mimeType actualBuffer = Return decodedActual /\
    decode mimeType expectedBuffer = Return expected /\
    width expected = width decodedActual /\
    height expected = height decodedActual /\
    run_comparator (nullish options no_options) expected decodedActual
      = Return r /\
    effective_cap (width expected * height expected)
      (nullish options no_options) < inject_Z (Z.of_N (fst r)) /\
    payload = PNG_sync_write (snd r).
Proof.
  intros Hres Hdiff.
  destruct (mimeType_cases mimeType)
    as [E|[E|[E|(Hpng & Hjpeg & Htext)]]].
  3:{ subst mimeType. rewrite getComparator_text in Hres.
      injection Hres as Hres. apply compareText_no_diff in Hres.
      congruence. }
  3:{ rewrite getComparator_other in Hres by assumption.
      injection Hres as Hres. apply compareBuffersOrStrings_no_diff in Hres.
      congruence. }
  all: assert (Himage : mimeType = "image/png" \/ mimeType = "image/jpeg")
         by tauto;
       split; [exact Himage|];
       rewrite (getComparator_image _ Himage) in Hres;
       pose proof (compareImages_run mimeType actual expectedBuffer options)
         as Hview;
       rewrite Hres in Hview;
       inversion Hview
         as [Hnb Hm| | |ab da ex Hact Ha He Hdim Hm
             |ab da ex Hact Ha He Ew Eh Hbind];
       try (subst mismatch; discriminate Hdiff);
       destruct (run_comparator (nullish options no_options) ex da)
         as [r|e] eqn:Hrun; simpl in Hbind; [|discriminate];
       assert (Hverdict : threshold_verdict (nullish options no_options)
                            (width ex * height ex) r = Some mismatch)
         by congruence;
       apply threshold_verdict_Some in Hverdict;
       destruct Hverdict as [Hgt Hmis];
       exists ab, da, ex, r; repeat split; try assumption;
       subst mismatch; simpl in Hdiff; congruence.
Qed.

(** X15: called with the options omitted or with an options object, the
    image comparator throws in two cases only: a buffer that its codec
    rejects (the codec's exception) and, once both buffers decoded to equal
    dimensions, a comparator name that is not known (the error naming
    it). *)
Theorem compareImages_throws_only (mimeType : string) (actual : JsValue)
    (expectedBuffer : Buffer) (options : option ImageComparatorOptions)
    (e : Exception) :
  compareImages mimeType actual expectedBuffer options = Throw e ->
  exists actualBuffer : Buffer,
    actual = Buf actualBuffer /\
    ((exists why : string,
        e = CodecException why /\
        (decode mimeType actualBuffer = Throw e \/
         exists decodedActual : Image,
           decode mimeType actualBuffer = Return decodedActual /\
           decode mimeType expectedBuffer = Throw e)) \/
     (exists (decodedActual expected : Image) (name : string),
        decode mimeType actualBuffer = Return decodedActual /\
        decode mimeType expectedBuffer = Return expected /\
        width expected = width decodedActual /\
        height expected = height decodedActual /\
        comparator (nullish options no_options) = Some name /\
        name <> "pixelmatch" /\ name <> "ssim-cie94" /\
        e = Error (unknown_comparator_message name))).
Proof.
  intros Hres.
  pose proof (compareImages_run mimeType actual expectedBuffer options)
    as Hview.
  rewrite Hres in Hview.
  inversion Hview
    as [ |ab why Hact Ha Hwhy|ab da why Hact Ha He Hwhy|
        |ab da ex Hact Ha He Ew Eh Hbind].
  - exists ab. split; [assumption|]. left. exists why.
    split; [reflexivity|]. left. assumption.
  - exists ab. split; [assumption|]. left. exists why.
    split; [reflexivity|]. right. exists da. split; assumption.
  - exists ab. split; [assumption|]. right.
    destruct (run_comparator (nullish options no_options) ex da)
      as [r|e'] eqn:Hrun; simpl in Hbind; [discriminate|].
    injection Hbind as <-.
    apply run_comparator_throws in Hrun.
    destruct Hrun as (name & Hname & Hpm & Hssim & ->).
    exists da, ex, name. repeat split; assumption.
Qed.

Lemma percent_at_most_100 (count pixels : N) :
  (count <= pixels)%N -> pixels <> 0%N -> percent count pixels <= inject_Z 100.
Proof.
  intros Hle Hp.
  assert (Pp : 0 < inject_Z (Z.of_N pixels)).
  { change 0 with (inject_Z 0). rewrite <- Zlt_Qlt. lia. }
  unfold percent. change (inject_Z 100) with 100. rewrite <- round53_100.
  apply round53_mono. change 100 with (1 * 100) at 2.
  apply Qmult_le_compat_r; [|discriminate].
  rewrite <- round53_1. apply round53_mono.
  apply Qle_shift_div_r; [exact Pp|]. rewrite Qmult_1_l.
  rewrite <- Zle_Qle. lia.
Qed.

(** For one to a hundred hundredths, the double nearest to [k / 100]
    prints as [k] hundredths. *)
Lemma shown_hundredths (k : Z) :
  (1 <= k <= 100)%Z ->
  toFixed2 (Finite (round53 (inject_Z k / 100))) = hundredths (Z.to_N k).
Proof.
  intros Hk.
  assert (Hall :
            List.forallb
              (fun i : nat =>
                 toFixed2 (Finite (round53 (inject_Z (Z.of_nat i) / 100)))
                 =? hundredths (Z.to_N (Z.of_nat i)))
              (List.seq 1 100) = true)
    by (vm_compute; reflexivity).
  rewrite List.forallb_forall in Hall.
  specialize (Hall (Z.to_nat k)).
  rewrite Z2Nat.id in Hall by lia.
  apply String.eqb_eq, Hall, List.in_seq. lia.
Qed.

(** X16: when the kernel's count is at least one and at most the number of
    pixels, the ratio shown in the mismatch message is a number of
    hundredths between 0.01 and 1.00. *)
Theorem reported_ratio_in_range (mimeType : string)
    (actualBuffer expectedBuffer : Buffer)
    (options : option ImageComparatorOptions) (actual expected : Image)
    (count : N) (diffImage : Image) (mismatch : Mismatch) :
  decode mimeType actualBuffer = Return actual ->
  decode mimeType expectedBuffer = Return expected ->
  width expected = width actual ->
  height expected = height actual ->
  run_comparator (nullish options no_options) expected actual =
    Return (count, diffImage) ->
  compareImages mimeType (Buf actualBuffer) expectedBuffer options =
    Return (Some mismatch) ->
  count <> 0%N ->
  (count <= width expected * height expected)%N ->
  exists k : N,
    (1 <= k <= 100)%N /\
    errorMessage mismatch =
      string_of_N count ++ " pixels (ratio " ++ hundredths k
        ++ " of all image pixels) are different".
Proof.
  intros Ha He Ew Eh Hrun Hres Hc Hle.
  set (pixels := (width expected * height expected)%N) in *.
  assert (Hp : pixels <> 0%N) by lia.
  rewrite (compareImages_verdict _ _ _ _ _ _ Ha He Ew Eh), Hrun in Hres.
  simpl in Hres. fold pixels in Hres.
  assert (Hverdict : threshold_verdict (nullish options no_options) pixels
                       (count, diffImage) = Some mismatch) by congruence.
  apply threshold_verdict_Some in Hverdict. destruct Hverdict as [_ ->].
  simpl. unfold count_message.
  rewrite (reported_ratio_finite count pixels Hp).
  pose proof (Qceiling_positive _ (percent_positive count pixels Hc Hp))
    as Hlow.
  pose proof (Qceiling_resp_le _ _ (percent_at_most_100 count pixels Hle Hp))
    as Hhigh.
  rewrite Qceiling_Z in Hhigh.
  exists (Z.to_N (Qceiling (percent count pixels))). split; [lia|].
  rewrite shown_hundredths by lia. reflexivity.
Qed.

End FurtherProperties.

(** ** Further concrete runs *)

(** X6 on a run: under [ssim-cie94], a threshold of 1 changes nothing. *)
Lemma compareImages_ssim_ignores_threshold_run :
  compareImages (ext := Toy.platform) "image/png" (Buf Toy.white) Toy.black
    (Some (set_threshold (Some 1%Q) (Toy.with_comparator "ssim-cie94"))) =
  compareImages (ext := Toy.platform) "image/png" (Buf Toy.white) Toy.black
    (Some (Toy.with_comparator "ssim-cie94")).
Proof.
  exact (compareImages_ssim_ignores_threshold (ext := Toy.platform)
           "image/png" (Buf Toy.white) Toy.black
           (Toy.with_comparator "ssim-cie94") (Some 1%Q) eq_refl).
Defined.

(** X7 on a run: a one-byte buffer has no header. *)
Lemma malformed_image_aborts_run :
  getComparator (ext := Toy.platform) "image/png" (Buf [x01]) Toy.black
    None = Throw (CodecException "missing header").
Proof.
  exact (proj1
           (malformed_image_aborts (ext := Toy.platform) [x01] Toy.black None
              "missing header") eq_refl).
Defined.

(** X9 on a run: one differing pixel, the cap raised from 1 to 2. *)
Lemma raising_maxDiffPixels_keeps_match_run :
  compareImages (ext := Toy.platform) "image/png" (Buf Toy.white) Toy.black
    (Some (set_maxDiffPixels (Some 2%Q) no_options)) = Return None.
Proof.
  assert (Hle : 1 <= 2) by discriminate.
  exact (raising_maxDiffPixels_keeps_match (ext := Toy.platform) "image/png"
           (Buf Toy.white) Toy.black no_options 1 2 Hle eq_refl).
Defined.

(** X10 on a run: one differing pixel out of two, the ratio raised from
    1/2 to 1. *)
Lemma raising_maxDiffPixelRatio_keeps_match_run :
  compareImages (ext := Toy.platform) "image/png" (Buf Toy.half) Toy.wide
    (Some (set_maxDiffPixelRatio (Some 1%Q) no_options)) = Return None.
Proof.
  assert (Hle : (1 # 2) <= 1) by discriminate.
  exact (raising_maxDiffPixelRatio_keeps_match (ext := Toy.platform)
           "image/png" (Buf Toy.half) Toy.wide no_options (1 # 2) 1 Hle
           eq_refl).
Defined.

(** X11 on a run: one differing pixel out of two, caps 1 and 1/2. *)
Lemma removing_a_cap_keeps_match_run :
  compareImages (ext := Toy.platform) "image/png" (Buf Toy.half) Toy.wide
    (Some (set_maxDiffPixels (Some 1%Q)
             (set_maxDiffPixelRatio None no_options))) = Return None /\
  compareImages (ext := Toy.platform) "image/png" (Buf Toy.half) Toy.wide
    (Some (set_maxDiffPixels None
             (set_maxDiffPixelRatio (Some (1 # 2)%Q) no_options))) =
  Return None.
Proof.
  exact (removing_a_cap_keeps_match (ext := Toy.platform) "image/png"
           (Buf Toy.half) Toy.wide no_options 1 (1 # 2) eq_refl).
Defined.

(** X12 on a run: 7 differing pixels out of 10 under the ratio 0.7.  The
    product of doubles [10 * 0.7] is 7, which tolerates them. *)
Lemma compareImages_cap_rounds_down_run :
  compareImages (ext := Toy.platform) "image/png" (Buf Boundary.spotted10)
    Boundary.plain10 (Some (Boundary.with_ratio (7 # 10))) = Return None.
Proof.
  assert (Hfloor :
            (Z.of_N 7
               <= Qfloor (effective_cap 10 (Boundary.with_ratio (7 # 10))))%Z)
    by (vm_compute; discriminate).
  exact (proj2
           (compareImages_cap_rounds_down (ext := Toy.platform) "image/png"
              Boundary.spotted10 Boundary.plain10
              (Some (Boundary.with_ratio (7 # 10)))
              (Toy.pixels_of Boundary.spotted10)
              (Toy.pixels_of Boundary.plain10) 7
              (Toy.blank 10 1) eq_refl eq_refl eq_refl eq_refl eq_refl)
           Hfloor).
Defined.

(** X13 on a run: an image against itself, a cap of 0 pixels given. *)
Lemma no_difference_matches_run :
  compareImages (ext := Toy.platform) "image/jpeg" (Buf Toy.wide) Toy.wide
    (Some (Toy.with_caps (Some 0%Q) None)) = Return None.
Proof.
  apply (no_difference_matches (ext := Toy.platform) "image/jpeg" Toy.wide
           Toy.wide (Some (Toy.with_caps (Some 0%Q) None))
           (Toy.pixels_of Toy.wide) (Toy.pixels_of Toy.wide)
           (Toy.blank 2 1) eq_refl eq_refl eq_refl eq_refl eq_refl).
  - intros m [= <-]. discriminate.
  - intros r [=].
Defined.

(** X14 on a run: a white pixel against a black one, no options. *)
Lemma diff_payload_only_for_compared_images_run :
  exists r : N * Image,
    run_comparator (ext := Toy.platform) no_options
      (Toy.pixels_of Toy.black) (Toy.pixels_of Toy.white) = Return r /\
    Toy.write (Toy.blank 1 1) = Toy.write (snd r).
Proof.
  destruct
    (diff_payload_only_for_compared_images (ext := Toy.platform) "image/png"
       (Buf Toy.white) Toy.black None
       {| errorMessage :=
            "1 pixels (ratio 1.00 of all image pixels) are different";
          diff := Some (Toy.write (Toy.blank 1 1)) |}
       (Toy.write (Toy.blank 1 1)) eq_refl eq_refl)
    as (_ & ab & da & ex & r & Hact & Ha & He & _ & _ & Hrun & _ & Hpay).
  injection Hact as <-.
  vm_compute in Ha. injection Ha as <-.
  vm_compute in He. injection He as <-.
  exists r. split; [exact Hrun | exact Hpay].
Defined.

(** X15 on a run: equal dimensions and the comparator name [bogus]. *)
Lemma compareImages_throws_only_run :
  exists name : string,
    comparator (Toy.with_comparator "bogus") = Some name /\
    Error (unknown_comparator_message "bogus") =
    Error (unknown_comparator_message name).
Proof.
  destruct
    (compareImages_throws_only (ext := Toy.platform) "image/png"
       (Buf Toy.white) Toy.black (Some (Toy.with_comparator "bogus"))
       (Error (unknown_comparator_message "bogus")) eq_refl)
    as (ab & _ & [(why & Hwhy & _)|(da & ex & name & H)]).
  - discriminate Hwhy.
  - destruct H as (_ & _ & _ & _ & Hname & _ & _ & He).
    exists name. split; assumption.
Defined.

(** X16 on a run: one differing pixel out of two. *)
Lemma reported_ratio_in_range_run :
  exists k : N,
    (1 <= k <= 100)%N /\
    "1 pixels (ratio 0.50 of all image pixels) are different" =
    string_of_N 1 ++ " pixels (ratio " ++ hundredths k
      ++ " of all image pixels) are different".
Proof.
  assert (Hle : (1 <= width (Toy.pixels_of Toy.wide)
                      * height (Toy.pixels_of Toy.wide))%N)
    by (vm_compute; discriminate).
  exact (reported_ratio_in_range (ext := Toy.platform) "image/png" Toy.half
           Toy.wide None (Toy.pixels_of Toy.half) (Toy.pixels_of Toy.wide) 1
           (Toy.blank 2 1)
           {| errorMessage :=
                "1 pixels (ratio 0.50 of all image pixels) are different";
              diff := Some (Toy.write (Toy.blank 2 1)) |}
           eq_refl eq_refl eq_refl eq_refl eq_refl eq_refl
           ltac:(discriminate) Hle).
Defined.
